(** * claude-config-merge: the deep-merge and directory-sync engines

    A shallow embedding of [internal/merge/merge.go] and
    [internal/dirsync/dirsync.go], and the properties of the two engines.

    - [Module Json]: the JSON value model ([map[string]any] trees).
    - [Module Merge]: [Merge], [mergeInto] and [qualifiedKey] on JSON values.
    - [Module MergeHeap]: the same functions over an explicit store of Go map
      objects, which exposes the sharing between the inputs and the result.
    - [Module DirSync]: [Sync], [copyDir] and [copyFile] over a model of the
      file system calls they make. *)

From stdpp Require Import gmap strings list fin_maps sorting.
From Stdlib Require Import ZArith.

#[local] Set Warnings "-register-all".
#[local] Open Scope string_scope.
#[local] Open Scope list_scope.

(** ** JSON values *)

Module Json.

(** What [encoding/json] decodes into [any]: [nil], [bool], [float64],
    [string], [[]any] and [map[string]any]. Numbers are compared by [==] in
    [reflect.DeepEqual]; a decoded document holds no NaN, so any type with a
    decidable equality stands for them and integers are used here. A Go map has
    no key order and no duplicate keys: it is a [gmap]. *)
Inductive value : Type :=
  | VNull
  | VBool (b : bool)
  | VNum (n : Z)
  | VStr (s : string)
  | VList (l : list value)
  | VObj (m : gmap string value).

Abbreviation object := (gmap string value).

Fixpoint value_eq_dec (v1 v2 : value) {struct v1} : Decision (v1 = v2).
Proof.
  refine (
    match v1, v2 with
    | VNull, VNull => left _
    | VBool b1, VBool b2 => cast_if (decide (b1 = b2))
    | VNum n1, VNum n2 => cast_if (decide (n1 = n2))
    | VStr s1, VStr s2 => cast_if (decide (s1 = s2))
    | VList l1, VList l2 => cast_if (@list_eq_dec _ value_eq_dec l1 l2)
    | VObj m1, VObj m2 => cast_if (@gmap_eq_dec _ _ _ _ value_eq_dec m1 m2)
    | _, _ => right _
    end); abstract congruence.
Defined.

#[global] Instance value_eqdec : EqDecision value := value_eq_dec.

(** [reflect.DeepEqual] on decoded JSON: structural equality, lists in order,
    maps by key. [gmap] equality is extensional, so this is [=]. *)
Definition DeepEqual (a b : value) : bool := bool_decide (a = b).

(** Whether the type assertion [v.(map[string]any)] succeeds. *)
Definition isMap (v : value) : bool :=
  match v with
  | VObj _ => true
  | _ => false
  end.

(** Size of a value, the measure for induction through nested objects. *)
Fixpoint vsize (v : value) : nat :=
  match v with
  | VList l => S (foldr (λ x acc, vsize x + acc) 0 l)
  | VObj m => S (map_fold (λ _ x acc, vsize x + acc) 0 m)
  | _ => 1
  end.

End Json.

(** ** The merge engine, on values *)

Module Merge.
Import Json.

(** [type Conflict struct] *)
Record Conflict : Type := mkConflict {
  Key : string;
  MasterValue : value;
  LocalValue : value;
}.

(** [type Result struct] *)
Record Result : Type := mkResult {
  Merged : object;
  Conflicts : list Conflict;
  Forced : list string;
  Added : list string;
  Matching : list string;
  LocalOnly : list string;
}.

#[global] Instance Conflict_eqdec : EqDecision Conflict.
Proof. solve_decision. Defined.

Definition addAdded (key : string) (r : Result) : Result :=
  mkResult (Merged r) (Conflicts r) (Forced r) (Added r ++ [key]) (Matching r) (LocalOnly r).
Definition addMatching (key : string) (r : Result) : Result :=
  mkResult (Merged r) (Conflicts r) (Forced r) (Added r) (Matching r ++ [key]) (LocalOnly r).
Definition addForced (key : string) (r : Result) : Result :=
  mkResult (Merged r) (Conflicts r) (Forced r ++ [key]) (Added r) (Matching r) (LocalOnly r).
Definition addConflict (c : Conflict) (r : Result) : Result :=
  mkResult (Merged r) (Conflicts r ++ [c]) (Forced r) (Added r) (Matching r) (LocalOnly r).
Definition addLocalOnly (key : string) (r : Result) : Result :=
  mkResult (Merged r) (Conflicts r) (Forced r) (Added r) (Matching r) (LocalOnly r ++ [key]).

(** [func qualifiedKey(prefix, key string) string] *)
Definition qualifiedKey (prefix key : string) : string :=
  if decide (prefix = "") then key else prefix +:+ "." +:+ key.

(** [localSubMap, _ = localSrc[k].(map[string]any)], guarded by
    [localSrc != nil]; [None] is the nil map. *)
Definition localSub (localSrc : option object) (k : string) : option object :=
  match localSrc with
  | Some l => match l !! k with
              | Some (VObj m) => Some m
              | _ => None
              end
  | None => None
  end.

(** The second loop of [mergeInto]: keys of [dst] that are not in [src] and
    were in the original local map. *)
Definition localOnlyLoop (dst src : object) (localSrc : option object)
    (prefix : string) (result : Result) : Result :=
  map_fold (λ k _ res,
    let key := qualifiedKey prefix k in
    match src !! k with
    | None =>
        match localSrc with
        | Some l => match l !! k with
                    | Some _ => addLocalOnly key res
                    | None => res
                    end
        | None => res
        end
    | Some _ => res
    end) result dst.

(** The body of the first loop of [mergeInto] for one entry [k, srcVal] of
    [src], given what the recursive call does on a pair of objects. *)
Definition mergeEntry
    (recurse : value → object → option object → string → Result → object * Result)
    (localSrc : option object) (prefix : string) (force : bool)
    (k : string) (srcVal : value) (st : object * Result) : object * Result :=
  let '(dst, result) := st in
  let key := qualifiedKey prefix k in
  match dst !! k with
  | None => (<[k := srcVal]> dst, addAdded key result)
  | Some dstVal =>
      match srcVal, dstVal with
      | VObj _, VObj dstMap =>
          let '(dstMap', result') :=
            recurse srcVal dstMap (localSub localSrc k) key result in
          (<[k := VObj dstMap']> dst, result')
      | _, _ =>
          if DeepEqual srcVal dstVal then (dst, addMatching key result)
          else if force then (<[k := srcVal]> dst, addForced key result)
          else (dst, addConflict (mkConflict key srcVal dstVal) result)
      end
  end.

(** [func mergeInto(dst, src, localSrc map[string]any, prefix string,
    force bool, result *Result)]. The map [dst] is updated in place and
    [result] through its pointer: both are threaded. The [range] over [src]
    is a fold over the map, in the order [map_fold] visits it; Go leaves the
    order unspecified and [Merge] sorts the lists afterwards. The recursion is
    on the value that holds [src], as the termination checker needs an
    inductive argument; [mergeInto] below is the function on maps. *)
Fixpoint mergeIntoRec (force : bool) (srcv : value) (dst : object)
    (localSrc : option object) (prefix : string) (result : Result)
    {struct srcv} : object * Result :=
  match srcv with
  | VObj src =>
      let '(dst1, result1) :=
        map_fold (mergeEntry (mergeIntoRec force) localSrc prefix force)
          (dst, result) src in
      (dst1, localOnlyLoop dst1 src localSrc prefix result1)
  | _ => (dst, result)
  end.

Definition mergeInto (dst src : object) (localSrc : option object)
    (prefix : string) (force : bool) (result : Result) : object * Result :=
  mergeIntoRec force (VObj src) dst localSrc prefix result.

(** [sort.Strings]: ascending byte-wise order. *)
Definition string_le (a b : string) : Prop := String.leb a b = true.
#[global] Instance string_le_dec : RelDecision string_le.
Proof. intros a b. unfold string_le. apply _. Defined.

Definition sortStrings (l : list string) : list string := merge_sort string_le l.

(** [sort.Slice(result.Conflicts, func(i, j) bool { Key[i] < Key[j] })]. *)
Definition conflict_le (a b : Conflict) : Prop := string_le (Key a) (Key b).
#[global] Instance conflict_le_dec : RelDecision conflict_le.
Proof. intros a b. unfold conflict_le. apply _. Defined.

Definition sortConflicts (l : list Conflict) : list Conflict := merge_sort conflict_le l.

(** [func Merge(master, local map[string]any, force bool) Result]. The fresh
    map [result.Merged] receives every entry of [local] and is the [dst] of the
    top-level [mergeInto]. *)
Definition Merge (master local : object) (force : bool) : Result :=
  let result := mkResult ∅ [] [] [] [] [] in
  let merged := map_fold (λ k v (m : object), <[k := v]> m) (Merged result) local in
  let '(merged', result') := mergeInto merged master (Some local) "" force result in
  mkResult merged'
    (sortConflicts (Conflicts result'))
    (sortStrings (Forced result'))
    (sortStrings (Added result'))
    (sortStrings (Matching result'))
    (sortStrings (LocalOnly result')).

(** *** Vocabulary of the properties *)

(** A path is the sequence of keys from the root; its qualified key is what
    [mergeInto] builds by repeated [qualifiedKey]. *)
Definition qualifiedPath (prefix : string) (p : list string) : string :=
  foldl qualifiedKey prefix p.

(** The value found at a path, descending through objects only. *)
Fixpoint lookup_path (p : list string) (m : object) : option value :=
  match p with
  | [] => None
  | k :: p' =>
      match p' with
      | [] => m !! k
      | _ => match m !! k with
             | Some (VObj m') => lookup_path p' m'
             | _ => None
             end
      end
  end.

(** The object found at a path; the empty path is the root. *)
Fixpoint lookup_obj (q : list string) (m : object) : option object :=
  match q with
  | [] => Some m
  | k :: q' => match m !! k with
               | Some (VObj m') => lookup_obj q' m'
               | _ => None
               end
  end.

(** The master keys at which the joint descent of [mergeInto] stops and
    classifies: a key [local] lacks at that level, or a key both have whose
    two values are not both objects. An object on both sides is descended
    into and is not itself a stopping point. *)
Fixpoint stopKeys (srcv : value) (dst : object) (prefix : string) : list string :=
  match srcv with
  | VObj src =>
      map_fold (λ k srcVal acc,
        acc ++
        match srcVal, dst !! k with
        | VObj _, Some (VObj dstMap) => stopKeys srcVal dstMap (qualifiedKey prefix k)
        | _, _ => [qualifiedKey prefix k]
        end) [] src
  | _ => []
  end.

(** The qualified keys of all leaves of a tree (values that are not objects,
    and empty objects), and of all its keys. *)
Fixpoint leafKeys (v : value) (prefix : string) : list string :=
  match v with
  | VObj m =>
      map_fold (λ k x acc,
        acc ++
        match x with
        | VObj m' => if decide (m' = ∅) then [qualifiedKey prefix k]
                     else leafKeys x (qualifiedKey prefix k)
        | _ => [qualifiedKey prefix k]
        end) [] m
  | _ => []
  end.

Fixpoint allKeys (v : value) (prefix : string) : list string :=
  match v with
  | VObj m =>
      map_fold (λ k x acc,
        acc ++ qualifiedKey prefix k :: allKeys x (qualifiedKey prefix k)) [] m
  | _ => []
  end.

(** The keys the four master-side lists of a result hold. *)
Definition classified (r : Result) : list string :=
  Added r ++ Matching r ++ (Key <$> Conflicts r) ++ Forced r.

(** Appending what a call records to what was recorded before it; [rnil]
    records nothing. *)
Definition rapp (r d : Result) : Result :=
  mkResult (Merged r) (Conflicts r ++ Conflicts d) (Forced r ++ Forced d)
    (Added r ++ Added d) (Matching r ++ Matching d) (LocalOnly r ++ LocalOnly d).

Definition rnil : Result := mkResult ∅ [] [] [] [] [].

(** What the first loop of [mergeInto] does with one entry [k, sv] of [src]
    when [dst] holds [dv] at [k]: the value [dst] holds at [k] afterwards and
    what is recorded. *)
Definition entryOut (force : bool) (ls : option object) (pre k : string)
    (sv : value) (dv : option value) : value * Result :=
  let key := qualifiedKey pre k in
  match dv with
  | None => (sv, addAdded key rnil)
  | Some dstVal =>
      match sv, dstVal with
      | VObj src, VObj dm =>
          let '(dm', r) := mergeInto dm src (localSub ls k) key force rnil in
          (VObj dm', r)
      | _, _ =>
          if DeepEqual sv dstVal then (dstVal, addMatching key rnil)
          else if force then (sv, addForced key rnil)
          else (dstVal, addConflict (mkConflict key sv dstVal) rnil)
      end
  end.

Definition entryDeltas (force : bool) (ls : option object) (pre : string)
    (dst : object) (l : list (string * value)) : Result :=
  foldr (λ kv acc, rapp acc (entryOut force ls pre kv.1 kv.2 (dst !! kv.1)).2) rnil l.

(** The test of the second loop of [mergeInto], and the keys it records, in
    loop order. *)
Definition isLocalOnly (src : object) (ls : option object) (k : string) : bool :=
  match src !! k with
  | None =>
      match ls with
      | Some l => match l !! k with Some _ => true | None => false end
      | None => false
      end
  | Some _ => false
  end.

Definition localOnlyKeys (dst src : object) (ls : option object) (pre : string)
    : list string :=
  foldr (λ (kv : string * value) acc,
           if isLocalOnly src ls kv.1 then acc ++ [qualifiedKey pre kv.1] else acc)
    [] (map_to_list dst).

(** A key is in exactly one of the four master-side lists. *)
Definition inExactlyOne (s : string) (r : Result) : Prop :=
  (s ∈ Added r ∧ s ∉ Matching r ∧ s ∉ (Key <$> Conflicts r) ∧ s ∉ Forced r) ∨
  (s ∉ Added r ∧ s ∈ Matching r ∧ s ∉ (Key <$> Conflicts r) ∧ s ∉ Forced r) ∨
  (s ∉ Added r ∧ s ∉ Matching r ∧ s ∈ (Key <$> Conflicts r) ∧ s ∉ Forced r) ∨
  (s ∉ Added r ∧ s ∉ Matching r ∧ s ∉ (Key <$> Conflicts r) ∧ s ∈ Forced r).

(** The completeness partition in the words of the specification: every
    leaf key of master is in exactly one list, and the four lists together
    have as many entries as master has leaves. *)
Definition partition_as_stated (master local : object) (force : bool) : Prop :=
  let r := Merge master local force in
  (∀ s, s ∈ leafKeys (VObj master) "" → inExactlyOne s r) ∧
  length (Added r) + length (Matching r) + length (Conflicts r) + length (Forced r)
  = length (leafKeys (VObj master) "").

(** Everything [a] records, [b] records. *)
Definition rsub (a b : Result) : Prop :=
  Conflicts a ⊆ Conflicts b ∧ Forced a ⊆ Forced b ∧ Added a ⊆ Added b ∧
  Matching a ⊆ Matching b ∧ LocalOnly a ⊆ LocalOnly b.

(** What a run without force records ([rF]) against what the run with force
    on the same inputs records ([rT]): the conflicts of the one are the forced
    keys of the other, in the same order, and the other lists agree. *)
Definition dual (rF rT : Result) : Prop :=
  Added rF = Added rT ∧ Matching rF = Matching rT ∧ LocalOnly rF = LocalOnly rT ∧
  Conflicts rT = [] ∧ Forced rF = [] ∧ Forced rT = Key <$> Conflicts rF.

(** A run that adds nothing, forces nothing and finds no conflict. *)
Definition quiet (r : Result) : Prop :=
  Added r = [] ∧ Conflicts r = [] ∧ Forced r = [].

(** What a second run without force records ([r2]) against the first
    ([r1]): nothing added, the same conflicts. *)
Definition again (r1 r2 : Result) : Prop :=
  Added r2 = [] ∧ Forced r2 = [] ∧ Forced r1 = [] ∧ Conflicts r2 = Conflicts r1.

(** Key [k] is local-only at path [q]: both trees have an object at [q],
    local's holds [k] (with value [v]) and master's does not. *)
Definition localOnlyAt (master local : object) (q : list string) (k : string)
    (v : value) : Prop :=
  ∃ mq lq, lookup_obj q master = Some mq ∧ lookup_obj q local = Some lq ∧
           lq !! k = Some v ∧ mq !! k = None.

(** Local-only preservation in the words of the specification: every key
    path of local that master does not have keeps its value in the merged
    tree and is in LocalOnly. *)
Definition local_only_as_stated (master local : object) (force : bool) : Prop :=
  let r := Merge master local force in
  ∀ p v, lookup_path p local = Some v → lookup_path p master = None →
         lookup_path p (Merged r) = Some v ∧ qualifiedPath "" p ∈ LocalOnly r.

End Merge.

(** ** The merge engine, on Go map objects

    A Go map value is a reference. [Merge] copies the entries of [local] into
    a fresh map, so the values of that map that are maps are the very objects
    [local] holds, and [mergeInto] writes into them. This module keeps the
    maps in a store to follow that. *)

Module MergeHeap.

Definition loc := nat.

(** A decoded JSON value; a map is a reference into the store. *)
Inductive hvalue : Type :=
  | HNull
  | HBool (b : bool)
  | HNum (n : Z)
  | HStr (s : string)
  | HList (l : list hvalue)
  | HMap (p : loc).

Abbreviation hobject := (gmap string hvalue).
Abbreviation heap := (gmap loc hobject).

Record Conflict : Type := mkConflict {
  Key : string;
  MasterValue : hvalue;
  LocalValue : hvalue;
}.

Record Result : Type := mkResult {
  Merged : loc;
  Conflicts : list Conflict;
  Forced : list string;
  Added : list string;
  Matching : list string;
  LocalOnly : list string;
}.

Definition addAdded (key : string) (r : Result) : Result :=
  mkResult (Merged r) (Conflicts r) (Forced r) (Added r ++ [key]) (Matching r) (LocalOnly r).
Definition addMatching (key : string) (r : Result) : Result :=
  mkResult (Merged r) (Conflicts r) (Forced r) (Added r) (Matching r ++ [key]) (LocalOnly r).
Definition addForced (key : string) (r : Result) : Result :=
  mkResult (Merged r) (Conflicts r) (Forced r ++ [key]) (Added r) (Matching r) (LocalOnly r).
Definition addConflict (c : Conflict) (r : Result) : Result :=
  mkResult (Merged r) (Conflicts r ++ [c]) (Forced r) (Added r) (Matching r) (LocalOnly r).
Definition addLocalOnly (key : string) (r : Result) : Result :=
  mkResult (Merged r) (Conflicts r) (Forced r) (Added r) (Matching r) (LocalOnly r ++ [key]).

(** [reflect.DeepEqual] on values of the store: two maps are equal when they
    are the same object, or have the same number of keys and deeply equal
    values under each key. [fuel] bounds the depth; a decoded JSON tree is
    finite and without cycles. *)
Fixpoint DeepEqual (fuel : nat) (h : heap) (a b : hvalue) : bool :=
  match fuel with
  | 0 => false
  | S fuel' =>
      match a, b with
      | HNull, HNull => true
      | HBool x, HBool y => bool_decide (x = y)
      | HNum x, HNum y => bool_decide (x = y)
      | HStr x, HStr y => bool_decide (x = y)
      | HList l1, HList l2 =>
          bool_decide (length l1 = length l2) &&
          forallb (λ xy, DeepEqual fuel' h xy.1 xy.2) (zip l1 l2)
      | HMap p, HMap q =>
          if decide (p = q) then true
          else match h !! p, h !! q with
               | Some m1, Some m2 =>
                   bool_decide (size m1 = size m2) &&
                   map_fold (λ k v1 acc,
                     acc && match m2 !! k with
                            | Some v2 => DeepEqual fuel' h v1 v2
                            | None => false
                            end) true m1
               | _, _ => false
               end
      | _, _ => false
      end
  end.

(** [dst[k] = v] on the map object at [dst]. *)
Definition store (dst : loc) (k : string) (v : hvalue) (h : heap) : heap :=
  match h !! dst with
  | Some m => <[dst := <[k := v]> m]> h
  | None => h
  end.

(** [m[k]] on the map object at [m]; a missing object reads as the nil map. *)
Definition load (m : loc) (k : string) (h : heap) : option hvalue :=
  h !! m ≫= (λ o, o !! k).

(** [localSubMap, _ = localSrc[k].(map[string]any)] under [localSrc != nil]. *)
Definition localSub (localSrc : option loc) (k : string) (h : heap) : option loc :=
  match localSrc with
  | Some l => match load l k h with
              | Some (HMap p) => Some p
              | _ => None
              end
  | None => None
  end.

(** The keys of the map object at [m], in the order [range] visits them. *)
Definition keys (m : loc) (h : heap) : list string :=
  match h !! m with
  | Some o => (map_to_list o).*1
  | None => []
  end.

(** [func mergeInto(dst, src, localSrc map[string]any, prefix string,
    force bool, result *Result)], the maps being references. [range src]
    visits the keys [src] has when the loop starts and reads each value when
    it is reached. The result is [None] when [fuel] runs out. *)
Fixpoint mergeInto (fuel : nat) (dst src : loc) (localSrc : option loc)
    (prefix : string) (force : bool) (st : heap * Result) : option (heap * Result) :=
  match fuel with
  | 0 => None
  | S fuel' =>
      st1 ← foldr (λ k (acc : option (heap * Result)),
        '(h, result) ← acc;
        match load src k h with
        | None => Some (h, result)
        | Some srcVal =>
            let key := Merge.qualifiedKey prefix k in
            match load dst k h with
            | None => Some (store dst k srcVal h, addAdded key result)
            | Some dstVal =>
                match srcVal, dstVal with
                | HMap srcMap, HMap dstMap =>
                    '(h', result') ←
                      mergeInto fuel' dstMap srcMap (localSub localSrc k h) key force
                        (h, result);
                    Some (store dst k (HMap dstMap) h', result')
                | _, _ =>
                    if DeepEqual fuel' h srcVal dstVal
                    then Some (h, addMatching key result)
                    else if force
                    then Some (store dst k srcVal h, addForced key result)
                    else Some (h, addConflict (mkConflict key srcVal dstVal) result)
                end
            end
        end) (Some st) (keys src st.1);
      let '(h1, result1) := st1 in
      Some (h1,
        foldr (λ k res,
          let key := Merge.qualifiedKey prefix k in
          match load src k h1 with
          | None =>
              match localSrc with
              | Some l => match load l k h1 with
                          | Some _ => addLocalOnly key res
                          | None => res
                          end
              | None => res
              end
          | Some _ => res
          end) result1 (keys dst h1))
  end.

Definition hconflict_le (a b : Conflict) : Prop := Merge.string_le (Key a) (Key b).
#[global] Instance hconflict_le_dec : RelDecision hconflict_le.
Proof. intros a b. unfold hconflict_le. apply _. Defined.

(** [func Merge(master, local map[string]any, force bool) Result]:
    [make] allocates the map of the result at a fresh location, the first
    loop copies the entries of [local] into it. *)
Definition Merge (fuel : nat) (master local : loc) (force : bool) (h : heap)
    : option (heap * Result) :=
  let merged := fresh (dom h) in
  let h0 := <[merged := ∅]> h in
  let h1 := foldr (λ k h', match load local k h' with
                           | Some v => store merged k v h'
                           | None => h'
                           end) h0 (keys local h0) in
  '(h2, result') ←
    mergeInto fuel merged master (Some local) "" force
      (h1, mkResult merged [] [] [] [] []);
  Some (h2,
    mkResult merged
      (merge_sort hconflict_le (Conflicts result'))
      (Merge.sortStrings (Forced result'))
      (Merge.sortStrings (Added result'))
      (Merge.sortStrings (Matching result'))
      (Merge.sortStrings (LocalOnly result'))).

(** The tree a value of the store stands for. *)
Fixpoint read (fuel : nat) (h : heap) (v : hvalue) : option Json.value :=
  match fuel with
  | 0 => None
  | S fuel' =>
      match v with
      | HNull => Some Json.VNull
      | HBool b => Some (Json.VBool b)
      | HNum n => Some (Json.VNum n)
      | HStr s => Some (Json.VStr s)
      | HList l => Json.VList <$> mapM (read fuel' h) l
      | HMap p =>
          o ← h !! p;
          Json.VObj <$>
            map_fold (λ k x (acc : option Json.object),
              m ← acc; y ← read fuel' h x; Some (<[k := y]> m)) (Some ∅) o
      end
  end.

(** The inputs of the nested-recursion example of the specification,
    [merge({"outer": {"new": 1}}, {"outer": {"old": 2}}, false)], as
    [json.Unmarshal] lays them out: master is the map at [0], local the map
    at [1], and each holds its own nested map. *)
Definition nested_heap : heap :=
  <[ 0 := {[ "outer" := HMap 2 ]} ]>
  (<[ 1 := {[ "outer" := HMap 3 ]} ]>
  (<[ 2 := {[ "new" := HNum 1 ]} ]>
  (<[ 3 := {[ "old" := HNum 2 ]} ]> ∅))).

Definition nested_master : loc := 0.
Definition nested_local : loc := 1.

End MergeHeap.

(** ** The directory sync engine

    [Sync], [copyDir] and [copyFile] call the [os] package; the calls are
    modelled on a file tree. A path is the list of its components from the
    root, and [filepath.Join(dir, name)] is [dir ++ [name]]. A symbolic link
    is a leaf that resolves to nothing (a dangling link): the model follows
    no link. Besides the errors the file tree itself causes, a call may fail
    for reasons outside the tree (permissions, I/O errors, a full disk): the
    [faults] of the world say which calls do, in the order the calls are
    made. *)

Module DirSync.

Abbreviation path := (list string).

Inductive node : Type :=
  | File (data : string) (mode : N)
  | Dir (mode : N)
  | Symlink.

#[global] Instance node_eqdec : EqDecision node.
Proof. solve_decision. Defined.

Abbreviation fs := (gmap path node).

Inductive error : Type :=
  | ENOENT    (* os.ErrNotExist *)
  | EEXIST    (* os.ErrExist *)
  | ENOTDIR
  | EISDIR
  | EIO       (* an injected failure *)
  | EFUEL.    (* the recursion bound of the model was reached *)

#[global] Instance error_eqdec : EqDecision error.
Proof. solve_decision. Defined.

(** The calls that change the file tree, for the log. *)
Inductive op : Type :=
  | OpMkdir | OpCreateTemp | OpChmod | OpWrite | OpRename (old : path) | OpRemove.

#[global] Instance op_eqdec : EqDecision op.
Proof. solve_decision. Defined.

Record event : Type := mkEvent {
  ev_op : op;
  ev_path : path;
  ev_before : fs;
  ev_after : fs;
}.

(** The world a call runs in: the file tree, the failures to come (one
    entry per call that can be made to fail; [Some n] makes the call fail,
    [n] being how far it got), the random suffixes [os.CreateTemp] will draw,
    and the log of the changes made so far, latest first. *)
Record world : Type := mkWorld {
  files : fs;
  faults : list (option nat);
  temps : list string;
  log : list event;
}.

(** [type Result struct] *)
Record Result : Type := mkResult {
  Copied : list string;
  Skipped : list string;
  Forced : list string;
}.

(** A call: it changes the world and returns a value or an error. *)
Definition M (A : Type) : Type := world → world * (error + A).

#[global] Instance M_ret : MRet M := λ A x w, (w, inr x).
#[global] Instance M_bind : MBind M := λ A B f m w,
  match m w with
  | (w', inr x) => f x w'
  | (w', inl e) => (w', inl e)
  end.

Definition fail {A : Type} (e : error) : M A := λ w, (w, inl e).

(** The next entry of the fault schedule. *)
Definition fault : M (option nat) := λ w,
  match faults w with
  | [] => (w, inr None)
  | f :: fs' => (mkWorld (files w) fs' (temps w) (log w), inr f)
  end.

(** A call that fails when the schedule says so. *)
Definition mayFail : M unit :=
  f ← fault; match f with Some _ => fail EIO | None => mret () end.

(** A change of the file tree, logged. *)
Definition update (o : op) (p : path) (f' : fs) : M unit := λ w,
  (mkWorld f' (faults w) (temps w) (mkEvent o p (files w) f' :: log w), inr ()).

Definition getFiles : M fs := λ w, (w, inr (files w)).

(** A call whose error is dropped: [_ = f()]. *)
Definition ignore {A : Type} (m : M A) : M unit := λ w, ((m w).1, inr ()).

(** [filepath.Dir] *)
Definition parent (p : path) : path := removelast p.

Definition isRegular (n : node) : bool :=
  match n with File _ _ => true | _ => false end.
Definition isDir (n : node) : bool :=
  match n with Dir _ => true | _ => false end.

(** The entry of [dir] that path [q] is, if it is one. *)
Definition childOf (dir : path) (q : path) (n : node) : option (string * node) :=
  match reverse q with
  | name :: rq => if decide (reverse rq = dir) then Some (name, n) else None
  | [] => None
  end.

Definition entry_le (a b : string * node) : Prop := Merge.string_le a.1 b.1.
#[global] Instance entry_le_dec : RelDecision entry_le.
Proof. intros a b. unfold entry_le. apply _. Defined.

(** The entries of a directory, sorted by file name as [os.ReadDir] returns
    them. *)
Definition entries (f : fs) (dir : path) : list (string * node) :=
  merge_sort entry_le (omap (λ qn, childOf dir qn.1 qn.2) (map_to_list f)).

(** The error of a call on a path the tree does not hold. The kernel walks
    the path from the root: below a regular file nothing resolves and the
    error is ENOTDIR, which is not [os.ErrNotExist]; a missing component, or a
    dangling link on the way, gives ENOENT. [base] is the directory searched,
    [rest] the components still to find. *)
Fixpoint resolveError (f : fs) (base : path) (rest : list string) : error :=
  match rest with
  | [] => ENOENT
  | c :: rest' =>
      match f !! base with
      | Some (Dir _) => resolveError f (base ++ [c]) rest'
      | Some (File _ _) => ENOTDIR
      | _ => ENOENT
      end
  end.

(** [os.ReadDir]: it opens the path, following links, and reads the entries.
    On a regular file it fails with ENOTDIR, on a dangling link with ENOENT,
    on a path the tree does not hold with the error of its resolution. Like
    the read of a directory, the last two may fail instead for a reason
    outside the tree. *)
Definition ReadDir (dir : path) : M (list (string * node)) :=
  f ← getFiles;
  match f !! dir with
  | Some (Dir _) => _ ← mayFail; mret (entries f dir)
  | Some (File _ _) => fail ENOTDIR
  | Some Symlink => _ ← mayFail; fail ENOENT
  | None => _ ← mayFail; fail (resolveError f [] dir)
  end.

(** [os.Lstat]: the node at the path itself. *)
Definition Lstat (p : path) : M node :=
  f ← getFiles;
  match f !! p with
  | Some n => _ ← mayFail; mret n
  | None =>
      match f !! parent p with
      | Some (File _ _) => fail ENOTDIR
      | _ => fail ENOENT
      end
  end.

(** [os.MkdirAll]: the components of the path are visited from the root;
    a directory is passed, a missing one created, a regular file stops the
    call with ENOTDIR and a dangling link with EEXIST. An injected failure
    [Some n] stops the call once [n] directories have been created. *)
Fixpoint mkdirFrom (base : path) (rest : list string) (perm : N)
    (budget : option nat) : M unit :=
  match rest with
  | [] => mret ()
  | c :: rest' =>
      let q := base ++ [c] in
      f ← getFiles;
      match f !! q with
      | Some (Dir _) => mkdirFrom q rest' perm budget
      | Some (File _ _) => fail ENOTDIR
      | Some Symlink => fail EEXIST
      | None =>
          match budget with
          | Some 0 => fail EIO
          | _ =>
              _ ← update OpMkdir q (<[q := Dir perm]> f);
              mkdirFrom q rest' perm (pred <$> budget)
          end
      end
  end.

Definition MkdirAll (p : path) (perm : N) : M unit :=
  b ← fault; mkdirFrom [] p perm b.

(** [os.Open] followed by what the handle gives: the bytes and, through
    [in.Stat], the mode. *)
Definition Open (p : path) : M (string * N) :=
  f ← getFiles;
  match f !! p with
  | Some (File data mode) => _ ← mayFail; mret (data, mode)
  | Some (Dir _) => fail EISDIR
  | _ => fail ENOENT
  end.

Definition Stat (handle : string * N) : M N :=
  _ ← mayFail; mret handle.2.

(** The first candidate name that is free in [dir]; [os.CreateTemp] opens
    with O_EXCL and draws again when the name is taken. *)
Fixpoint pickTemp (f : fs) (dir : path) (pattern : string) (cands : list string)
    : option (path * list string) :=
  match cands with
  | [] => None
  | c :: cs =>
      let t := dir ++ [pattern +:+ c] in
      match f !! t with
      | None => Some (t, cs)
      | Some _ => pickTemp f dir pattern cs
      end
  end.

(** Drawing the name: the suffixes tried are used up. *)
Definition drawTemp (dir : path) (pattern : string) : M (option path) := λ w,
  match pickTemp (files w) dir pattern (temps w) with
  | None => (w, inr None)
  | Some (t, cs) => (mkWorld (files w) (faults w) cs (log w), inr (Some t))
  end.

(** [os.CreateTemp(dir, pattern)], the pattern ending in [*]: a new empty
    file of mode 0600. *)
Definition CreateTemp (dir : path) (pattern : string) : M path :=
  f ← getFiles;
  match f !! dir with
  | Some (Dir _) =>
      _ ← mayFail;
      t ← drawTemp dir pattern;
      match t with
      | None => fail EEXIST
      | Some t => _ ← update OpCreateTemp t (<[t := File "" 384]> f); mret t
      end
  | Some _ => fail ENOTDIR
  | None => fail ENOENT
  end.

(** [tmp.Chmod] *)
Definition Chmod (t : path) (mode : N) : M unit :=
  _ ← mayFail;
  f ← getFiles;
  match f !! t with
  | Some (File data _) => update OpChmod t (<[t := File data mode]> f)
  | _ => fail ENOENT
  end.

(** [io.Copy(tmp, in)]: an injected failure [Some n] leaves the first [n]
    bytes written. *)
Definition Copy (t : path) (data : string) : M unit :=
  b ← fault;
  f ← getFiles;
  match f !! t with
  | Some (File _ mode) =>
      match b with
      | Some n =>
          _ ← update OpWrite t (<[t := File (String.substring 0 n data) mode]> f);
          fail EIO
      | None => update OpWrite t (<[t := File data mode]> f)
      end
  | _ => fail ENOENT
  end.

(** [tmp.Close] *)
Definition Close : M unit := mayFail.

(** [os.Rename] of a file: it replaces what is at the new path in one step,
    and fails on a directory. *)
Definition Rename (old new : path) : M unit :=
  f ← getFiles;
  match f !! old with
  | None => fail ENOENT
  | Some n =>
      match f !! new with
      | Some (Dir _) => fail EISDIR
      | _ => _ ← mayFail; update (OpRename old) new (<[new := n]> (delete old f))
      end
  end.

(** [os.Remove] *)
Definition Remove (p : path) : M unit :=
  _ ← mayFail;
  f ← getFiles;
  update OpRemove p (delete p f).

(** A call followed, when it fails, by a call whose own error is dropped;
    the error of the first is returned. *)
Definition onError {A : Type} (m : M A) (cleanup : M unit) : M A := λ w,
  match m w with
  | (w', inl e) => ((ignore cleanup w').1, inl e)
  | r => r
  end.

(** [func copyFile(src, dst string) error]. The deferred
    [_ = os.Remove(tmpName)] runs on every return after [os.CreateTemp] but
    the successful one, which disarms it; the failures of [tmp.Chmod] and
    [io.Copy] are followed by [_ = tmp.Close()]. *)
Definition copyFile (src dst : path) : M unit :=
  in_ ← Open src;
  mode ← Stat in_;
  tmpName ← CreateTemp (parent dst) ".copy-";
  onError (
    _ ← onError (Chmod tmpName mode) Close;
    _ ← onError (Copy tmpName in_.1) Close;
    _ ← Close;
    Rename tmpName dst) (Remove tmpName).

(** [err != nil && !errors.Is(err, os.ErrExist)] after [os.MkdirAll]. *)
Definition mkdirDst (dst : path) : M unit := λ w,
  match MkdirAll dst 488 w with
  | (w', inl EEXIST) => (w', inr ())
  | r => r
  end.

(** [func copyDir(src, dst string) error]; [fuel] bounds the depth of the
    recursion. *)
Fixpoint copyDir (fuel : nat) (src dst : path) : M unit :=
  match fuel with
  | 0 => fail EFUEL
  | S fuel' =>
      es ← ReadDir src;
      _ ← mkdirDst dst;
      foldl (λ (acc : M unit) (entry : string * node),
        _ ← acc;
        let srcPath := src ++ [entry.1] in
        let dstPath := dst ++ [entry.1] in
        if isDir entry.2 then copyDir fuel' srcPath dstPath
        else if isRegular entry.2 then copyFile srcPath dstPath
        else mret ()) (mret ()) es
  end.

(** One turn of the loop of [Sync]: the result so far and the error that
    ends the loop, if any. *)
Definition syncEntry (fuel : nat) (src dst : path) (force : bool)
    (entry : string * node) (res : Result) : world → world * (Result * option error) := λ w,
  let name := entry.1 in
  let srcPath := src ++ [name] in
  let dstPath := dst ++ [name] in
  match Lstat dstPath w with
  | (w1, inl e) =>
      if decide (e = ENOENT) then
        (* exists = false *)
        if isRegular entry.2 then
          match copyFile srcPath dstPath w1 with
          | (w2, inl e') => (w2, (res, Some e'))
          | (w2, inr _) => (w2, (mkResult (Copied res ++ [name]) (Skipped res) (Forced res), None))
          end
        else if isDir entry.2 then
          match copyDir fuel srcPath dstPath w1 with
          | (w2, inl e') => (w2, (res, Some e'))
          | (w2, inr _) => (w2, (mkResult (Copied res ++ [name]) (Skipped res) (Forced res), None))
          end
        else (w1, (res, None))
      else (w1, (res, Some e))
  | (w1, inr _) =>
      (* exists = true *)
      if negb force then
        (w1, (mkResult (Copied res) (Skipped res ++ [name]) (Forced res), None))
      else if isRegular entry.2 then
        match copyFile srcPath dstPath w1 with
        | (w2, inl e') => (w2, (res, Some e'))
        | (w2, inr _) => (w2, (mkResult (Copied res) (Skipped res) (Forced res ++ [name]), None))
        end
      else if isDir entry.2 then
        match copyDir fuel srcPath dstPath w1 with
        | (w2, inl e') => (w2, (res, Some e'))
        | (w2, inr _) => (w2, (mkResult (Copied res) (Skipped res) (Forced res ++ [name]), None))
        end
      else (w1, (res, None))
  end.

Fixpoint syncLoop (fuel : nat) (src dst : path) (force : bool)
    (es : list (string * node)) (res : Result) (w : world)
    : world * (Result * option error) :=
  match es with
  | [] => (w, (res, None))
  | entry :: es' =>
      match syncEntry fuel src dst force entry res w with
      | (w', (res', None)) => syncLoop fuel src dst force es' res' w'
      | r => r
      end
  end.

(** [func Sync(src, dst string, force bool) (Result, error)] *)
Definition Sync (fuel : nat) (src dst : path) (force : bool) (w : world)
    : world * (Result * option error) :=
  let res := mkResult [] [] [] in
  match ReadDir src w with
  | (w1, inl e) =>
      if decide (e = ENOENT) then (w1, (res, None)) else (w1, (res, Some e))
  | (w1, inr es) =>
      match mkdirDst dst w1 with
      | (w2, inl e) => (w2, (res, Some e))
      | (w2, inr _) =>
          match syncLoop fuel src dst force es res w2 with
          | (w3, (res', None)) =>
              (w3, (mkResult (Merge.sortStrings (Copied res'))
                      (Merge.sortStrings (Skipped res'))
                      (Merge.sortStrings (Forced res')), None))
          | r => r
          end
      end
  end.

(** *** Vocabulary of the properties *)

(** [p] is at or below [d]. *)
Definition under (d p : path) : Prop := d `prefix_of` p.

(** The name [os.CreateTemp] gives a file with the pattern of [copyFile]. *)
Definition tempNamed (p : path) : Prop :=
  ∃ c, last p = Some (".copy-" +:+ c).

(** The events [evs], oldest first, lead from tree [f] to tree [f']. *)
Fixpoint trace (f : fs) (evs : list event) (f' : fs) : Prop :=
  match evs with
  | [] => f = f'
  | e :: evs' => ev_before e = f ∧ trace (ev_after e) evs' f'
  end.

(** What one change of the tree may do when files are copied from under
    [src] to under [dst]: a path that does not bear a temporary name changes
    only when a directory is created where there was nothing, or when a
    temporary file of the same directory, holding all the bytes and the mode
    of the source file it was copied from, is renamed to it. *)
Definition atomic_event (src dst : path) (e : event) : Prop :=
  ∀ P, ¬ tempNamed P → ev_after e !! P ≠ ev_before e !! P →
    (ev_op e = OpMkdir ∧ ev_before e !! P = None ∧ ∃ m, ev_after e !! P = Some (Dir m)) ∨
    (∃ t rel data mode,
       ev_op e = OpRename t ∧ ev_path e = P ∧ P = dst ++ rel ∧
       parent t = parent P ∧ tempNamed t ∧
       ev_before e !! (src ++ rel) = Some (File data mode) ∧
       ev_before e !! t = Some (File data mode) ∧
       ev_after e !! P = Some (File data mode)).

(** What a call made for target [T] inside directory [D] may change: a path
    under [T], or a path that held nothing and is under [D] or leads to it. *)
Definition foot (T D : path) (f f' : fs) : Prop :=
  ∀ P, f' !! P = f !! P ∨ under T P ∨
       (f !! P = None ∧ (under D P ∨ P `prefix_of` D)).

(** What a call does from tree [f0]: the changes it logs lead from [f0] to
    the tree it leaves, each of them satisfies [ev], and the tree it leaves
    satisfies [Q] with the value returned or [E] with the error. *)
Definition hoare {A : Type} (ev : event → Prop) (f0 : fs) (m : M A)
    (Q : A → fs → Prop) (E : error → fs → Prop) : Prop :=
  ∀ w, files w = f0 →
    ∃ evs, log (m w).1 = evs ++ log w ∧
           trace f0 (reverse evs) (files (m w).1) ∧
           Forall ev evs ∧
           match (m w).2 with
           | inr x => Q x (files (m w).1)
           | inl e => E e (files (m w).1)
           end.

(** What [copyFile] to [dst] may leave changed besides [dst] itself: a
    temporary file, in the directory of [dst], where there was nothing. *)
Definition sharp (dst : path) (f0 f : fs) : Prop :=
  ∀ P, P ≠ dst →
    f !! P = f0 !! P ∨ (f0 !! P = None ∧ parent P = parent dst ∧ tempNamed P).

(** Neither directory is inside the other. *)
Definition apart (src dst : path) : Prop :=
  ¬ src `prefix_of` dst ∧ ¬ dst `prefix_of` src.

(** What [os.MkdirAll] of [D] may change: it creates directories, where
    there was nothing, on the way to [D]. *)
Definition mkrel (D : path) (f0 f : fs) : Prop :=
  ∀ P, f !! P = f0 !! P ∨ (f0 !! P = None ∧ P `prefix_of` D).

Definition holdsFile (o : option node) : Prop :=
  ∃ data mode, o = Some (File data mode).

(** What copying the tree under [S] to under [D] may change: a path that held
    nothing, under [D] or on the way to it, or the counterpart under [D] of a
    regular file under [S]. *)
Definition copyrel (S D : path) (f0 f : fs) : Prop :=
  ∀ P, f !! P = f0 !! P ∨
       (f0 !! P = None ∧ (under D P ∨ P `prefix_of` D)) ∨
       (∃ rel, P = D ++ rel ∧ holdsFile (f0 !! (S ++ rel))).

(** What [copyFile] from [s] to [d] leaves. *)
Definition filepost (s d : path) (f0 f : fs) : Prop :=
  sharp d f0 f ∧ (f !! d = f0 !! d ∨ f0 !! d = None ∨ holdsFile (f0 !! s)).

(** The changes logged between two worlds lead from the tree of the one to
    the tree of the other and satisfy [ev]. *)
Definition steps (ev : event → Prop) (w w' : world) : Prop :=
  ∃ evs, log w' = evs ++ log w ∧
         trace (files w) (reverse evs) (files w') ∧ Forall ev evs.

(** The example of the specification: the source holds [a.md] with
    content [new] and a skill directory, the destination holds [a.md] with
    content [old] and a file of its own inside the same skill directory. *)
Definition example_files : fs :=
  <[ ["src"; "a.md"] := File "new" 420 ]>
  (<[ ["src"; "skill"] := Dir 493 ]>
  (<[ ["src"; "skill"; "SKILL.md"] := File "skill" 420 ]>
  (<[ ["dst"; "a.md"] := File "old" 384 ]>
  (<[ ["dst"; "skill"] := Dir 493 ]>
  (<[ ["dst"; "skill"; "notes.md"] := File "mine" 384 ]>
  (<[ ["dst"] := Dir 493 ]>
  (<[ ["src"] := Dir 493 ]>
  (<[ [] := Dir 493 ]> ∅)))))))).

Definition example_world : world := mkWorld example_files [] ["1"; "2"; "3"] [].

(** The next call the schedule could make fail does not fail. *)
Definition nextOk (w : world) : Prop := ∀ n, head (faults w) ≠ Some (Some n).

(** The missing source in the words of the specification: whenever the tree
    holds nothing at the source path, [Sync] returns the empty result and no
    error. *)
Definition missing_source_as_stated (fuel : nat) (src dst : path) (force : bool)
    (w : world) : Prop :=
  files w !! src = None →
  (Sync fuel src dst force w).2 = (mkResult [] [] [], None).

(** A tree in which the source path lies below a regular file. *)
Definition file_above_world : world :=
  mkWorld (<[ ["f"] := File "x" 420 ]> {[ [] := Dir 493 ]}) [] [] [].

(** The name is in exactly one of the three lists. *)
Definition inOneList (name : string) (res : Result) : Prop :=
  (name ∈ Copied res ∧ name ∉ Skipped res ∧ name ∉ Forced res) ∨
  (name ∉ Copied res ∧ name ∈ Skipped res ∧ name ∉ Forced res) ∨
  (name ∉ Copied res ∧ name ∉ Skipped res ∧ name ∈ Forced res).

(** Skip and force in the words of the specification: for a source entry
    whose name exists at the destination, a run without force leaves the
    destination entry as it was and lists the name in Skipped, a run with force
    puts the source content there and lists the name in Forced, and in each
    run the name is in exactly one list. *)
Definition skip_or_force_as_stated (fuel : nat) (src dst : path) (name : string)
    (w : world) : Prop :=
  is_Some (files w !! (src ++ [name])) → is_Some (files w !! (dst ++ [name])) →
  (∀ w' res, Sync fuel src dst false w = (w', (res, None)) →
     files w' !! (dst ++ [name]) = files w !! (dst ++ [name]) ∧
     name ∈ Skipped res ∧ inOneList name res) ∧
  (∀ w' res, Sync fuel src dst true w = (w', (res, None)) →
     files w' !! (dst ++ [name]) = files w !! (src ++ [name]) ∧
     name ∈ Forced res ∧ inOneList name res).

(** The example with one more entry on each side: a symbolic link in the
    source, and a file of the same name in the destination. *)
Definition link_world : world :=
  mkWorld (<[ ["src"; "link"] := Symlink ]>
           (<[ ["dst"; "link"] := File "kept" 384 ]> example_files))
    [] ["1"; "2"; "3"] [].

(** The body of the loop of [copyDir] for one entry, and the loop over the
    entries: [copyDir (S fuel) src dst] is [ReadDir src], [mkdirDst dst] and
    [copyLoop (copyEntry fuel src dst)] over the entries read. *)
Definition copyEntry (fuel : nat) (src dst : path) (entry : string * node) : M unit :=
  if isDir entry.2 then copyDir fuel (src ++ [entry.1]) (dst ++ [entry.1])
  else if isRegular entry.2 then copyFile (src ++ [entry.1]) (dst ++ [entry.1])
  else mret ().

Definition copyLoop (body : string * node → M unit) (es : list (string * node))
    : M unit :=
  foldl (λ (acc : M unit) (entry : string * node), _ ← acc; body entry) (mret ()) es.

(** A call that never stops for lack of fuel. *)
Definition noFuel {A : Type} (m : M A) : Prop := ∀ w, (m w).2 ≠ inl EFUEL.

(** A regular file at [rel] below [s] is reached from [s] through
    directories. *)
Definition reached (f : fs) (s : path) (rel : list string) : Prop :=
  ∀ pre, pre `prefix_of` rel → pre ≠ rel → ∃ md, f !! (s ++ pre) = Some (Dir md).

End DirSync.

(** * Properties of the merge engine *)

Module MergeFacts.
Import Json Merge.

(** ** Induction through nested objects *)

Lemma vsize_lookup (m : object) k v : m !! k = Some v → vsize v < vsize (VObj m).
Proof.
  intros H. simpl. rewrite (map_fold_delete_L _ _ k v m); [lia| |done].
  intros. lia.
Qed.

Lemma value_sub_ind (P : value → Prop) :
  (∀ v, (∀ m k x, v = VObj m → m !! k = Some x → P x) → P v) → ∀ v, P v.
Proof.
  intros IH v. remember (vsize v) as n eqn:Hn. revert v Hn.
  induction n as [n IHn] using lt_wf_ind. intros v ->. apply IH.
  intros m k x -> Hk. eapply IHn; [|done]. by eapply vsize_lookup.
Qed.

Lemma object_ind (P : object → Prop) :
  (∀ src, (∀ k m, src !! k = Some (VObj m) → P m) → P src) → ∀ src, P src.
Proof.
  intros IH src.
  cut (∀ v m, v = VObj m → P m); [by eauto|]. clear src.
  induction v as [v IHv] using value_sub_ind. intros src ->.
  apply IH. intros k m Hk. by eapply IHv.
Qed.

(** ** The copy of [local] into the fresh map *)

Lemma copy_local (local : object) :
  map_fold (λ k v (m : object), <[k := v]> m) ∅ local = local.
Proof.
  apply (map_fold_weak_ind (λ r m, r = m)); [done|].
  by intros i x m r _ ->.
Qed.

(** ** The lists only grow *)

Lemma rapp_assoc r a b : rapp (rapp r a) b = rapp r (rapp a b).
Proof. unfold rapp; simpl. by rewrite !(assoc_L (++)). Qed.

Lemma rapp_rnil r : rapp r rnil = r.
Proof. destruct r. unfold rapp; simpl. by rewrite !app_nil_r. Qed.

Lemma localOnlyLoop_acc dst src ls pre r r0 :
  localOnlyLoop dst src ls pre (rapp r r0) = rapp r (localOnlyLoop dst src ls pre r0).
Proof.
  unfold localOnlyLoop. apply (map_fold_comm_acc _ (rapp r)).
  intros j z y. repeat case_match; try done.
  unfold addLocalOnly, rapp; simpl. by rewrite !(assoc_L (++)).
Qed.

Lemma mergeEntry_acc recurse ls pre force k sv d r r0 :
  (∀ dm l key x, recurse sv dm l key (rapp r x) =
     ((recurse sv dm l key x).1, rapp r (recurse sv dm l key x).2)) →
  mergeEntry recurse ls pre force k sv (d, rapp r r0) =
  ((mergeEntry recurse ls pre force k sv (d, r0)).1,
   rapp r (mergeEntry recurse ls pre force k sv (d, r0)).2).
Proof.
  intros Hrec. unfold mergeEntry.
  destruct (d !! k) as [dstVal|]; simpl.
  2:{ f_equal. unfold addAdded, rapp; simpl. by rewrite !(assoc_L (++)). }
  assert (Hleaf :
    (if DeepEqual sv dstVal then (d, addMatching (qualifiedKey pre k) (rapp r r0))
     else if force then (<[k:=sv]> d, addForced (qualifiedKey pre k) (rapp r r0))
     else (d, addConflict (mkConflict (qualifiedKey pre k) sv dstVal) (rapp r r0))) =
    (let res := (if DeepEqual sv dstVal then (d, addMatching (qualifiedKey pre k) r0)
     else if force then (<[k:=sv]> d, addForced (qualifiedKey pre k) r0)
     else (d, addConflict (mkConflict (qualifiedKey pre k) sv dstVal) r0)) in
     (res.1, rapp r res.2))).
  { destruct (DeepEqual sv dstVal); [|destruct force]; simpl; f_equal;
      unfold addMatching, addForced, addConflict, rapp; simpl;
      by rewrite !(assoc_L (++)). }
  destruct sv; try exact Hleaf.
  destruct dstVal; try exact Hleaf.
  rewrite Hrec. by destruct (recurse _ _ _ _ r0).
Qed.

Lemma mergeIntoRec_acc force srcv : ∀ dst ls pre r r0,
  mergeIntoRec force srcv dst ls pre (rapp r r0) =
  ((mergeIntoRec force srcv dst ls pre r0).1,
   rapp r (mergeIntoRec force srcv dst ls pre r0).2).
Proof.
  induction srcv as [srcv IH] using value_sub_ind. intros dst ls pre r r0.
  destruct srcv as [| | | | |src]; try done. simpl.
  pose (g := λ st : object * Result, (st.1, rapp r st.2)).
  change (dst, rapp r r0) with (g (dst, r0)).
  rewrite (map_fold_comm_acc_strong (=) _ g).
  - destruct (map_fold _ (dst, r0) src) as [d1 r1]. simpl.
    by rewrite localOnlyLoop_acc.
  - solve_proper.
  - intros j z [d x] Hj. unfold g. cbn [fst snd].
    rewrite mergeEntry_acc; [done|]. intros. by eapply IH.
Qed.

Lemma mergeInto_acc force dst src ls pre r :
  mergeInto dst src ls pre force r =
  ((mergeInto dst src ls pre force rnil).1,
   rapp r (mergeInto dst src ls pre force rnil).2).
Proof.
  unfold mergeInto. rewrite <- (rapp_rnil r) at 1. apply mergeIntoRec_acc.
Qed.

(** ** One entry, then the whole loop *)

Lemma mergeInto_unfold force dst src ls pre r :
  mergeInto dst src ls pre force r =
  let st := map_fold (mergeEntry (mergeIntoRec force) ls pre force) (dst, r) src in
  (st.1, localOnlyLoop st.1 src ls pre st.2).
Proof. unfold mergeInto; simpl. by destruct (map_fold _ _ _). Qed.

Lemma mergeEntry_entryOut force ls pre k sv d r :
  mergeEntry (mergeIntoRec force) ls pre force k sv (d, r) =
  (<[k := (entryOut force ls pre k sv (d !! k)).1]> d,
   rapp r (entryOut force ls pre k sv (d !! k)).2).
Proof.
  unfold mergeEntry, entryOut.
  destruct (d !! k) as [dstVal|] eqn:Hk; simpl.
  2:{ f_equal. unfold addAdded, rapp, rnil; simpl. by rewrite !app_nil_r. }
  assert (Hleaf :
    (if DeepEqual sv dstVal then (d, addMatching (qualifiedKey pre k) r)
     else if force then (<[k:=sv]> d, addForced (qualifiedKey pre k) r)
     else (d, addConflict (mkConflict (qualifiedKey pre k) sv dstVal) r)) =
    (let res := (if DeepEqual sv dstVal then (dstVal, addMatching (qualifiedKey pre k) rnil)
     else if force then (sv, addForced (qualifiedKey pre k) rnil)
     else (dstVal, addConflict (mkConflict (qualifiedKey pre k) sv dstVal) rnil)) in
     (<[k := res.1]> d, rapp r res.2))).
  { destruct (DeepEqual sv dstVal); [|destruct force]; simpl;
      rewrite ?(insert_id d k dstVal) by done; f_equal;
      unfold addMatching, addForced, addConflict, rapp, rnil; simpl;
      by rewrite !app_nil_r. }
  destruct sv; try exact Hleaf.
  destruct dstVal; try exact Hleaf.
  fold (mergeInto m0 m (localSub ls k) (qualifiedKey pre k) force r).
  rewrite mergeInto_acc.
  by destruct (mergeInto m0 m (localSub ls k) (qualifiedKey pre k) force rnil).
Qed.

Lemma lookup_foldr_insert_notin {A} (f : string * value → A) (g : A → value)
    (l : list (string * value)) (d : object) k :
  k ∉ l.*1 →
  foldr (λ kv acc, <[kv.1 := g (f kv)]> acc) d l !! k = d !! k.
Proof.
  induction l as [|[k' v'] l IH]; [done|]. simpl. intros Hk.
  apply not_elem_of_cons in Hk as [? ?].
  rewrite lookup_insert_ne by done. auto.
Qed.

Lemma lookup_foldr_insert_in {A} (f : string * value → A) (g : A → value)
    (l : list (string * value)) (d : object) k v :
  NoDup l.*1 → (k, v) ∈ l →
  foldr (λ kv acc, <[kv.1 := g (f kv)]> acc) d l !! k = Some (g (f (k, v))).
Proof.
  induction l as [|[k' v'] l IH]; [by intros _ ?%elem_of_nil|]. simpl.
  intros [Hk' Hnd]%NoDup_cons [Heq|Hin]%elem_of_cons.
  - injection Heq as -> ->. by rewrite lookup_insert_eq.
  - rewrite lookup_insert_ne; [by apply IH|].
    intros ->. apply Hk'. apply list_elem_of_fmap. by exists (k, v).
Qed.

Lemma foldr_mergeEntry force ls pre (l : list (string * value)) d r :
  NoDup l.*1 →
  foldr (uncurry (mergeEntry (mergeIntoRec force) ls pre force)) (d, r) l =
  (foldr (λ kv acc, <[kv.1 := (entryOut force ls pre kv.1 kv.2 (d !! kv.1)).1]> acc) d l,
   rapp r (entryDeltas force ls pre d l)).
Proof.
  induction l as [|[k v] l IH]; simpl.
  { intros _. by rewrite rapp_rnil. }
  intros [Hk Hnd]%NoDup_cons. rewrite IH by done.
  rewrite mergeEntry_entryOut.
  rewrite (lookup_foldr_insert_notin
             (λ kv, entryOut force ls pre kv.1 kv.2 (d !! kv.1)) fst) by done.
  by rewrite rapp_assoc.
Qed.

(** The merged map, key by key: a key of [src] holds what [entryOut] leaves
    there, any other key is untouched. *)
Lemma mergeInto_lookup force dst src ls pre r k :
  (mergeInto dst src ls pre force r).1 !! k =
  match src !! k with
  | Some sv => Some (entryOut force ls pre k sv (dst !! k)).1
  | None => dst !! k
  end.
Proof.
  rewrite mergeInto_unfold. cbn [fst]. rewrite map_fold_foldr.
  rewrite foldr_mergeEntry by apply NoDup_fst_map_to_list. cbn [fst].
  destruct (src !! k) as [sv|] eqn:Hk.
  - apply (lookup_foldr_insert_in
             (λ kv, entryOut force ls pre kv.1 kv.2 (dst !! kv.1)) fst).
    + apply NoDup_fst_map_to_list.
    + by apply elem_of_map_to_list.
  - apply (lookup_foldr_insert_notin
             (λ kv, entryOut force ls pre kv.1 kv.2 (dst !! kv.1)) fst).
    intros [[k' v'] [-> Hin]]%list_elem_of_fmap.
    apply elem_of_map_to_list in Hin. simpl in Hk. congruence.
Qed.

(** What is recorded: the entries' records in loop order, then the local-only
    keys of this level. *)
Lemma mergeInto_result force dst src ls pre r :
  (mergeInto dst src ls pre force r).2 =
  localOnlyLoop (mergeInto dst src ls pre force r).1 src ls pre
    (rapp r (entryDeltas force ls pre dst (map_to_list src))).
Proof.
  rewrite mergeInto_unfold. cbn [fst snd]. rewrite map_fold_foldr.
  by rewrite foldr_mergeEntry by apply NoDup_fst_map_to_list.
Qed.

(** ** The second loop *)

Lemma localOnlyLoop_eq dst src ls pre r :
  localOnlyLoop dst src ls pre r =
  mkResult (Merged r) (Conflicts r) (Forced r) (Added r) (Matching r)
    (LocalOnly r ++ localOnlyKeys dst src ls pre).
Proof.
  unfold localOnlyLoop, localOnlyKeys. rewrite map_fold_foldr.
  induction (map_to_list dst) as [|[k v] l IH]; simpl.
  { destruct r; simpl. by rewrite app_nil_r. }
  rewrite IH. unfold isLocalOnly.
  destruct (src !! k); [done|]. destruct ls as [l0|]; [|done].
  destruct (l0 !! k); [|done].
  unfold addLocalOnly; simpl. by rewrite (assoc_L (++)).
Qed.

Lemma elem_of_localOnlyKeys dst src ls pre s :
  s ∈ localOnlyKeys dst src ls pre ↔
  ∃ k, is_Some (dst !! k) ∧ isLocalOnly src ls k = true ∧ s = qualifiedKey pre k.
Proof.
  unfold localOnlyKeys.
  assert (Hl : ∀ k, is_Some (dst !! k) ↔ ∃ v, (k, v) ∈ map_to_list dst).
  { intros k. unfold is_Some. by setoid_rewrite elem_of_map_to_list. }
  setoid_rewrite Hl. clear Hl.
  induction (map_to_list dst) as [|[k v] l IH]; simpl.
  { split; [by intros ?%elem_of_nil|]. by intros (k & [v ?%elem_of_nil] & _). }
  destruct (isLocalOnly src ls k) eqn:Hk.
  - rewrite elem_of_app, IH, list_elem_of_singleton. split.
    + intros [(k' & [v' Hin] & ? & ?)| ->].
      * exists k'. split; [|done]. exists v'. by apply list_elem_of_further.
      * exists k. split; [|done]. exists v. apply list_elem_of_here.
    + intros (k' & [v' [Heq|Hin]%elem_of_cons] & Hlo & ->).
      * injection Heq as -> ->. by right.
      * left. exists k'. eauto.
  - rewrite IH. split.
    + intros (k' & [v' Hin] & ? & ?). exists k'. split; [|done].
      exists v'. by apply list_elem_of_further.
    + intros (k' & [v' [Heq|Hin]%elem_of_cons] & Hlo & ->).
      * injection Heq as -> ->. congruence.
      * exists k'. eauto.
Qed.

(** The order in which a map is visited depends on its keys only. *)
Lemma map_to_list_keys_dom (m1 m2 : object) :
  dom m1 = dom m2 → (map_to_list m1).*1 = (map_to_list m2).*1.
Proof.
  revert m2. induction m1 as [|i x m Hi Hfirst IH] using map_first_key_ind; intros m2 Hdom.
  - rewrite dom_empty_L in Hdom. symmetry in Hdom. apply dom_empty_inv_L in Hdom.
    by rewrite Hdom.
  - assert (is_Some (m2 !! i)) as [y Hy].
    { apply elem_of_dom. rewrite <- Hdom, dom_insert_L. set_solver. }
    assert (Hfirst2 : map_first_key m2 i).
    { by apply (map_first_key_dom_L (<[i:=x]> m) m2 i Hdom). }
    rewrite <- (insert_delete_id m2 i y) in Hfirst2 |- * by done.
    rewrite !map_to_list_insert_first_key; [|by rewrite lookup_delete_eq|done..].
    simpl. f_equal. apply IH.
    rewrite dom_delete_L, <- Hdom, dom_insert_L.
    apply not_elem_of_dom in Hi. set_solver.
Qed.

Lemma localOnlyKeys_dom dst1 dst2 src ls pre :
  dom dst1 = dom dst2 →
  localOnlyKeys dst1 src ls pre = localOnlyKeys dst2 src ls pre.
Proof.
  intros Hdom%map_to_list_keys_dom. unfold localOnlyKeys.
  revert Hdom. generalize (map_to_list dst1) (map_to_list dst2).
  induction l as [|[k v] l IH]; intros [|[k' v'] l']; simpl; try done.
  intros [= -> Hl]. by rewrite (IH l').
Qed.

(** ** Every stopping point is classified once *)

Lemma perm_interleave {A} (a1 a2 x1 x2 : list A) :
  (a1 ++ a2) ++ (x1 ++ x2) ≡ₚ (a1 ++ x1) ++ (a2 ++ x2).
Proof.
  rewrite <- !(assoc_L (++)). f_equiv. rewrite !(assoc_L (++)). f_equiv.
  apply Permutation_app_comm.
Qed.

Lemma classified_rapp r d : classified (rapp r d) ≡ₚ classified r ++ classified d.
Proof.
  unfold classified, rapp; simpl. rewrite fmap_app.
  rewrite (perm_interleave (Key <$> Conflicts r)).
  rewrite (perm_interleave (Matching r)).
  by rewrite (perm_interleave (Added r)).
Qed.

Lemma classified_localOnlyLoop dst src ls pre r :
  classified (localOnlyLoop dst src ls pre r) = classified r.
Proof. by rewrite localOnlyLoop_eq. Qed.

Lemma stopKeys_unfold src dst pre :
  stopKeys (VObj src) dst pre =
  foldr (λ (kv : string * value) acc,
      acc ++
      match kv.2, dst !! kv.1 with
      | VObj _, Some (VObj dstMap) => stopKeys kv.2 dstMap (qualifiedKey pre kv.1)
      | _, _ => [qualifiedKey pre kv.1]
      end) [] (map_to_list src).
Proof.
  simpl. rewrite map_fold_foldr. apply foldr_ext; [|done..].
  by intros [k v] acc.
Qed.

Lemma classified_entryOut_leaf (force : bool) (sv dstVal : value) (key : string) :
  classified
    (if DeepEqual sv dstVal then (dstVal, addMatching key rnil)
     else if force then (sv, addForced key rnil)
     else (dstVal, addConflict (mkConflict key sv dstVal) rnil)).2 = [key].
Proof. by destruct (DeepEqual sv dstVal); [|destruct force]. Qed.

Lemma classified_mergeInto force src : ∀ dst ls pre,
  classified (mergeInto dst src ls pre force rnil).2 ≡ₚ stopKeys (VObj src) dst pre.
Proof.
  induction src as [src IH] using object_ind. intros dst ls pre.
  rewrite mergeInto_result, classified_localOnlyLoop, classified_rapp.
  rewrite stopKeys_unfold. simpl.
  assert (Hin : ∀ k v, (k, v) ∈ map_to_list src → src !! k = Some v).
  { intros k v. by rewrite elem_of_map_to_list. }
  revert Hin. generalize (map_to_list src). intros l Hin.
  induction l as [|[k sv] l IHl]; [done|]. cbn [entryDeltas foldr fst snd].
  rewrite classified_rapp. fold (entryDeltas force ls pre dst l).
  rewrite IHl by (intros; apply Hin; by apply list_elem_of_further).
  f_equiv. unfold entryOut.
  destruct (dst !! k) as [dstVal|]; [|by destruct sv].
  destruct sv; try apply reflexive_eq, classified_entryOut_leaf.
  destruct dstVal; try apply reflexive_eq, classified_entryOut_leaf.
  specialize (IH k m (Hin _ _ (list_elem_of_here _ _)) m0 (localSub ls k) (qualifiedKey pre k)).
  by destruct (mergeInto m0 m _ _ force rnil).
Qed.

(** ** [Merge] in terms of [mergeInto] *)

Lemma Merge_unfold master local force :
  Merge master local force =
  let res := mergeInto local master (Some local) "" force rnil in
  mkResult res.1
    (sortConflicts (Conflicts res.2)) (sortStrings (Forced res.2))
    (sortStrings (Added res.2)) (sortStrings (Matching res.2))
    (sortStrings (LocalOnly res.2)).
Proof.
  unfold Merge. cbn [Merged]. rewrite copy_local. fold rnil.
  by destruct (mergeInto local master (Some local) "" force rnil).
Qed.

Lemma sortStrings_perm l : sortStrings l ≡ₚ l.
Proof. apply merge_sort_Permutation. Qed.

Lemma sortConflicts_perm l : sortConflicts l ≡ₚ l.
Proof. apply merge_sort_Permutation. Qed.

Lemma classified_Merge master local force :
  classified (Merge master local force) ≡ₚ
  classified (mergeInto local master (Some local) "" force rnil).2.
Proof.
  rewrite Merge_unfold. unfold classified; simpl.
  by rewrite !sortStrings_perm, sortConflicts_perm.
Qed.

(** C1 (as the code has it): the keys recorded in Added, Matching, Conflicts
    and Forced are, entry for entry, the master keys at which the joint
    descent stops (a key local lacks at its level, or a key of both whose
    values are not both objects): each stopping point is recorded once, in one
    list, and the four lists together have as many entries as there are
    stopping points. A master subtree that local lacks counts once, and an
    object present on both sides is not counted itself. *)
Theorem C1_partition_of_stopping_points (master local : object) (force : bool) :
  let r := Merge master local force in
  classified r ≡ₚ stopKeys (VObj master) local "" ∧
  length (Added r) + length (Matching r) + length (Conflicts r) + length (Forced r)
  = length (stopKeys (VObj master) local "").
Proof.
  intros r. assert (Hp : classified r ≡ₚ stopKeys (VObj master) local "").
  { unfold r. rewrite classified_Merge. apply classified_mergeInto. }
  split; [done|]. rewrite <- Hp. unfold classified.
  rewrite !length_app, length_fmap. lia.
Qed.

(** C1 as stated fails: with master [{"a": {"x": 1, "y": 2}, "b": {}}] and
    local [{"b": {}}] the only entry is Added ["a"]; the master leaves
    ["a.x"], ["a.y"] and ["b"] are in no list. *)
Lemma C1_partition_as_stated_fails :
  ¬ partition_as_stated
      {[ "a" := VObj (<[ "x" := VNum 1 ]> {[ "y" := VNum 2 ]}); "b" := VObj ∅ ]}
      {[ "b" := VObj ∅ ]} false.
Proof.
  intros [_ Hlen]. vm_compute in Hlen. discriminate.
Qed.

(** ** Comparing two runs over the same master *)

Lemma entryDeltas_rel (R : Result → Result → Prop)
    f1 ls1 pre1 d1 f2 ls2 pre2 d2 (l : list (string * value)) :
  R rnil rnil →
  (∀ a b c d, R a b → R c d → R (rapp a c) (rapp b d)) →
  (∀ k v, (k, v) ∈ l →
     R (entryOut f1 ls1 pre1 k v (d1 !! k)).2 (entryOut f2 ls2 pre2 k v (d2 !! k)).2) →
  R (entryDeltas f1 ls1 pre1 d1 l) (entryDeltas f2 ls2 pre2 d2 l).
Proof.
  intros Hnil Happ. induction l as [|[k v] l IH]; intros Hl; [done|]. simpl.
  apply Happ.
  - apply IH. intros. apply Hl. by apply list_elem_of_further.
  - apply (Hl k v). apply list_elem_of_here.
Qed.

Lemma mergeInto_dom force dst src ls pre r :
  dom (mergeInto dst src ls pre force r).1 = dom dst ∪ dom src.
Proof.
  apply set_eq. intros k. rewrite elem_of_union, !elem_of_dom, mergeInto_lookup.
  destruct (src !! k); [|unfold is_Some]; naive_solver.
Qed.

Lemma rsub_refl a : rsub a a.
Proof. by repeat split. Qed.

Lemma rsub_rapp_l a r d : rsub a r → rsub a (rapp r d).
Proof.
  intros (?&?&?&?&?). unfold rapp. repeat split; simpl; set_solver.
Qed.

Lemma rsub_rapp_r a r d : rsub a d → rsub a (rapp r d).
Proof.
  intros (?&?&?&?&?). unfold rapp. repeat split; simpl; set_solver.
Qed.

Lemma rsub_entryDeltas force ls pre dst (l : list (string * value)) k v :
  (k, v) ∈ l → rsub (entryOut force ls pre k v (dst !! k)).2 (entryDeltas force ls pre dst l).
Proof.
  induction l as [|[k' v'] l IH]; [by intros ?%elem_of_nil|].
  intros [Heq|Hin]%elem_of_cons; simpl.
  - injection Heq as -> ->. apply rsub_rapp_r, rsub_refl.
  - by apply rsub_rapp_l, IH.
Qed.

Lemma rsub_mergeInto force dst src ls pre k v :
  src !! k = Some v →
  rsub (entryOut force ls pre k v (dst !! k)).2 (mergeInto dst src ls pre force rnil).2.
Proof.
  intros Hk. rewrite mergeInto_result, localOnlyLoop_eq.
  pose proof (rsub_entryDeltas force ls pre dst (map_to_list src) k v) as (?&?&?&?&?).
  { by apply elem_of_map_to_list. }
  unfold rsub, rapp, rnil; simpl. repeat split; set_solver.
Qed.

(** Membership in the local-only list of a loop: from an entry, or from the
    second loop of this level. *)
Lemma elem_of_LocalOnly_entryDeltas force ls pre dst (l : list (string * value)) s :
  s ∈ LocalOnly (entryDeltas force ls pre dst l) →
  ∃ k v, (k, v) ∈ l ∧ s ∈ LocalOnly (entryOut force ls pre k v (dst !! k)).2.
Proof.
  induction l as [|[k v] l IH]; simpl; [by intros ?%elem_of_nil|].
  intros [Hin|Hin]%elem_of_app.
  - destruct (IH Hin) as (k' & v' & ? & ?). exists k', v'.
    split; [by apply list_elem_of_further|done].
  - exists k, v. split; [apply list_elem_of_here|done].
Qed.

Lemma elem_of_LocalOnly_mergeInto force dst src ls pre s :
  s ∈ LocalOnly (mergeInto dst src ls pre force rnil).2 ↔
  (∃ k v, src !! k = Some v ∧ s ∈ LocalOnly (entryOut force ls pre k v (dst !! k)).2) ∨
  (∃ k, is_Some (dst !! k) ∧ isLocalOnly src ls k = true ∧ s = qualifiedKey pre k).
Proof.
  rewrite mergeInto_result, localOnlyLoop_eq. cbn [LocalOnly rapp rnil app].
  rewrite elem_of_app, elem_of_localOnlyKeys. split.
  - intros [Hin|(k & Hk & Hlo & ->)].
    + apply elem_of_LocalOnly_entryDeltas in Hin as (k & v & Hin & ?).
      left. exists k, v. by rewrite <- elem_of_map_to_list.
    + right. exists k. split; [|done].
      rewrite mergeInto_lookup in Hk. unfold isLocalOnly in Hlo.
      by destruct (src !! k).
  - intros [(k & v & Hk & Hin)|(k & Hk & Hlo & ->)].
    + left. by apply (rsub_entryDeltas force ls pre dst (map_to_list src) k v);
        [apply elem_of_map_to_list|].
    + right. exists k. split; [|done].
      rewrite mergeInto_lookup. unfold isLocalOnly in Hlo.
      by destruct (src !! k).
Qed.

(** ** Force against no force *)

Lemma dual_rnil : dual rnil rnil.
Proof. by repeat split. Qed.

Lemma dual_rapp a b c d : dual a b → dual c d → dual (rapp a c) (rapp b d).
Proof.
  intros (Ha&Hm&Hl&Hc&Hf&Hk) (Ha'&Hm'&Hl'&Hc'&Hf'&Hk'). unfold dual, rapp; simpl.
  by rewrite Ha, Hm, Hl, Hc, Hf, Hk, Ha', Hm', Hl', Hc', Hf', Hk', fmap_app.
Qed.

Lemma dual_mergeInto src : ∀ dst ls pre,
  dual (mergeInto dst src ls pre false rnil).2 (mergeInto dst src ls pre true rnil).2.
Proof.
  induction src as [src IH] using object_ind. intros dst ls pre.
  rewrite !mergeInto_result, !localOnlyLoop_eq.
  rewrite (localOnlyKeys_dom (mergeInto dst src ls pre false rnil).1
             (mergeInto dst src ls pre true rnil).1)
    by (by rewrite !mergeInto_dom).
  assert (Hd : dual (entryDeltas false ls pre dst (map_to_list src))
                    (entryDeltas true ls pre dst (map_to_list src))).
  { apply entryDeltas_rel; [apply dual_rnil|apply dual_rapp|].
    intros k v Hin%elem_of_map_to_list. unfold entryOut.
    destruct (dst !! k) as [dstVal|]; [|done].
    assert (Hleaf : dual
      (if DeepEqual v dstVal then (dstVal, addMatching (qualifiedKey pre k) rnil)
       else (dstVal, addConflict (mkConflict (qualifiedKey pre k) v dstVal) rnil)).2
      (if DeepEqual v dstVal then (dstVal, addMatching (qualifiedKey pre k) rnil)
       else (v, addForced (qualifiedKey pre k) rnil)).2).
    { by destruct (DeepEqual v dstVal). }
    destruct v; try exact Hleaf. destruct dstVal; try exact Hleaf.
    specialize (IH k m Hin m0 (localSub ls k) (qualifiedKey pre k)).
    by destruct (mergeInto m0 m _ _ false rnil), (mergeInto m0 m _ _ true rnil). }
  destruct Hd as (Ha&Hm&Hl&Hc&Hf&Hk). unfold dual, rapp, rnil; simpl.
  by rewrite Ha, Hm, Hl, Hc, Hf, Hk.
Qed.

(** ** Paths *)

Lemma qualifiedPath_cons pre k p :
  qualifiedPath pre (k :: p) = qualifiedPath (qualifiedKey pre k) p.
Proof. done. Qed.

Lemma qualifiedPath_snoc pre q k :
  qualifiedPath pre (q ++ [k]) = qualifiedKey (qualifiedPath pre q) k.
Proof. unfold qualifiedPath. by rewrite foldl_app. Qed.

Lemma lookup_path_cons k p (m : object) :
  p ≠ [] →
  lookup_path (k :: p) m =
  match m !! k with Some (VObj m') => lookup_path p m' | _ => None end.
Proof. by destruct p. Qed.

Lemma lookup_path_snoc q k (m : object) :
  lookup_path (q ++ [k]) m = lookup_obj q m ≫= (λ m', m' !! k).
Proof.
  revert m. induction q as [|k0 q IH]; intros m; [done|].
  change ((k0 :: q) ++ [k]) with (k0 :: (q ++ [k])).
  rewrite lookup_path_cons by (by destruct q). simpl.
  destruct (m !! k0) as [[]|]; auto.
Qed.

(** A key both trees hold with values that are not both objects and differ:
    without force the local value stays and a conflict is recorded, with force
    the master value is written and the key recorded as forced. *)
Lemma mergeInto_conflict_path p : ∀ src dst ls pre mv lv,
  lookup_path p src = Some mv → lookup_path p dst = Some lv →
  ¬ (isMap mv = true ∧ isMap lv = true) → mv ≠ lv →
  (lookup_path p (mergeInto dst src ls pre false rnil).1 = Some lv ∧
   mkConflict (qualifiedPath pre p) mv lv ∈ Conflicts (mergeInto dst src ls pre false rnil).2) ∧
  (lookup_path p (mergeInto dst src ls pre true rnil).1 = Some mv ∧
   qualifiedPath pre p ∈ Forced (mergeInto dst src ls pre true rnil).2).
Proof.
  induction p as [|k p IH]; intros src dst ls pre mv lv Hs Hd Hobj Hne; [done|].
  destruct (decide (p = [])) as [->|Hp].
  - simpl in Hs, Hd. cbn [lookup_path]. rewrite !mergeInto_lookup, Hs, Hd.
    assert (Hout : ∀ force, entryOut force ls pre k mv (Some lv) =
      if force then (mv, addForced (qualifiedKey pre k) rnil)
      else (lv, addConflict (mkConflict (qualifiedKey pre k) mv lv) rnil)).
    { intros force. unfold entryOut, DeepEqual.
      rewrite bool_decide_eq_false_2 by done.
      destruct mv; try done. destruct lv; try done. by destruct Hobj. }
    pose proof (rsub_mergeInto false dst src ls pre k mv Hs) as (Hc&_).
    pose proof (rsub_mergeInto true dst src ls pre k mv Hs) as (_&Hf&_).
    rewrite Hd, Hout in Hc, Hf. rewrite !Hout. simpl in *.
    repeat split; [apply Hc|apply Hf]; apply list_elem_of_here.
  - rewrite lookup_path_cons in Hs, Hd by done.
    destruct (src !! k) as [[| | | | |sm]|] eqn:Hsk; try done.
    destruct (dst !! k) as [[| | | | |dm]|] eqn:Hdk; try done.
    rewrite !lookup_path_cons, !mergeInto_lookup, Hsk, Hdk by done.
    rewrite qualifiedPath_cons.
    destruct (IH sm dm (localSub ls k) (qualifiedKey pre k) mv lv Hs Hd Hobj Hne)
      as [[HF1 HF2] [HT1 HT2]].
    pose proof (rsub_mergeInto false dst src ls pre k _ Hsk) as (Hc&_).
    pose proof (rsub_mergeInto true dst src ls pre k _ Hsk) as (_&Hf&_).
    rewrite Hdk in Hc, Hf. unfold entryOut in *.
    destruct (mergeInto dm sm _ _ false rnil), (mergeInto dm sm _ _ true rnil).
    simpl in *. repeat split; auto.
Qed.

(** C3: for a key that master and local both hold at a path, with values
    that are not both objects and are not deeply equal, the run without force
    records a conflict with both values and keeps the local value in the
    merged tree; the run with force records the key as forced and puts the
    master value in the merged tree. Added, Matching and LocalOnly are the
    same in both runs, the run with force has no conflict, the run without
    has no forced key, and the forced keys of the one are the conflict keys of
    the other. *)
Theorem C3_force_duality (master local : object) (p : list string) (mv lv : value) :
  lookup_path p master = Some mv →
  lookup_path p local = Some lv →
  isMap mv && isMap lv = false →
  DeepEqual mv lv = false →
  let rF := Merge master local false in
  let rT := Merge master local true in
  (mkConflict (qualifiedPath "" p) mv lv ∈ Conflicts rF ∧
   lookup_path p (Merged rF) = Some lv) ∧
  (qualifiedPath "" p ∈ Forced rT ∧
   lookup_path p (Merged rT) = Some mv) ∧
  Added rF = Added rT ∧ Matching rF = Matching rT ∧ LocalOnly rF = LocalOnly rT ∧
  Conflicts rT = [] ∧ Forced rF = [] ∧ Forced rT ≡ₚ Key <$> Conflicts rF.
Proof.
  intros Hm Hl Hobj Hne rF rT. unfold rF, rT. rewrite !Merge_unfold. cbn zeta.
  destruct (mergeInto_conflict_path p master local (Some local) "" mv lv Hm Hl)
    as [[HF1 HF2] [HT1 HT2]].
  { intros [H1 H2]. by rewrite H1, H2 in Hobj. }
  { by apply (bool_decide_eq_false_1 (mv = lv)). }
  destruct (dual_mergeInto master local (Some local) "") as (Ha&Hma&Hlo&Hc&Hf&Hk).
  cbn [Merged Conflicts Forced Added Matching LocalOnly].
  rewrite Ha, Hma, Hlo, Hc, Hf, Hk.
  repeat split; try done.
  - by rewrite sortConflicts_perm.
  - by rewrite sortStrings_perm, <- Hk.
  - by rewrite sortStrings_perm, sortConflicts_perm.
Qed.

Lemma C3_force_duality_witness :
  let master : object := {[ "nested" := VObj {[ "shared" := VStr "master" ]} ]} in
  let local : object := {[ "nested" := VObj {[ "shared" := VStr "local" ]} ]} in
  mkConflict "nested.shared" (VStr "master") (VStr "local")
    ∈ Conflicts (Merge master local false) ∧
  "nested.shared" ∈ Forced (Merge master local true).
Proof.
  intros master local.
  destruct (C3_force_duality master local ["nested"; "shared"]
              (VStr "master") (VStr "local"))
    as ([Hc _] & [Hf _] & _); [vm_compute; reflexivity..|].
  split; [exact Hc|exact Hf].
Defined.

(** ** Merging the same master again *)

Lemma quiet_rapp a b : quiet a → quiet b → quiet (rapp a b).
Proof.
  intros (Ha&Hc&Hf) (Ha'&Hc'&Hf'). unfold quiet, rapp; simpl.
  by rewrite Ha, Hc, Hf, Ha', Hc', Hf'.
Qed.

Lemma again_rapp a b c d : again a b → again c d → again (rapp a c) (rapp b d).
Proof.
  intros (Ha&Hf&Hf1&Hc) (Ha'&Hf'&Hf1'&Hc'). unfold again, rapp; simpl.
  by rewrite Ha, Hf, Hf1, Hc, Ha', Hf', Hf1', Hc'.
Qed.

Lemma DeepEqual_refl v : DeepEqual v v = true.
Proof. by apply bool_decide_eq_true. Qed.

(** Merging an object into itself changes nothing and records only matches. *)
Lemma mergeInto_self m : ∀ ls pre,
  (mergeInto m m ls pre false rnil).1 = m ∧ quiet (mergeInto m m ls pre false rnil).2.
Proof.
  induction m as [m IH] using object_ind. intros ls pre.
  assert (Hent : ∀ k v, m !! k = Some v →
    (entryOut false ls pre k v (Some v)).1 = v ∧ quiet (entryOut false ls pre k v (Some v)).2).
  { intros k v Hk. unfold entryOut.
    assert (Hleaf :
      (if DeepEqual v v then (v, addMatching (qualifiedKey pre k) rnil)
       else (v, addConflict (mkConflict (qualifiedKey pre k) v v) rnil)).1 = v ∧
      quiet (if DeepEqual v v then (v, addMatching (qualifiedKey pre k) rnil)
       else (v, addConflict (mkConflict (qualifiedKey pre k) v v) rnil)).2).
    { by rewrite DeepEqual_refl. }
    destruct v; try exact Hleaf.
    destruct (IH k m0 Hk (localSub ls k) (qualifiedKey pre k)) as [Hm Hq].
    destruct (mergeInto m0 m0 _ _ false rnil). simpl in *. by subst. }
  split.
  - apply map_eq. intros k. rewrite mergeInto_lookup.
    destruct (m !! k) as [v|] eqn:Hk; [|done]. f_equal. by apply Hent.
  - rewrite mergeInto_result, localOnlyLoop_eq.
    assert (Hq : quiet (entryDeltas false ls pre m (map_to_list m))).
    { apply (entryDeltas_rel (λ a _, quiet a) false ls pre m false ls pre m);
        [done|by intros; apply quiet_rapp|].
      intros k v Hin%elem_of_map_to_list. rewrite Hin. by apply Hent. }
    destruct Hq as (Ha&Hc&Hf). unfold quiet, rapp, rnil; simpl. by rewrite Ha, Hc, Hf.
Qed.

Lemma entryOut_None force ls pre k v :
  entryOut force ls pre k v None = (v, addAdded (qualifiedKey pre k) rnil).
Proof. done. Qed.

Lemma entryOut_obj force ls pre k sm dm :
  entryOut force ls pre k (VObj sm) (Some (VObj dm)) =
  ((VObj (mergeInto dm sm (localSub ls k) (qualifiedKey pre k) force rnil).1),
   (mergeInto dm sm (localSub ls k) (qualifiedKey pre k) force rnil).2).
Proof. unfold entryOut. by destruct (mergeInto dm sm _ _ force rnil). Qed.

Lemma entryOut_leaf (force : bool) ls pre k (v dv : value) :
  isMap v && isMap dv = false →
  entryOut force ls pre k v (Some dv) =
  if DeepEqual v dv then (dv, addMatching (qualifiedKey pre k) rnil)
  else if force then (v, addForced (qualifiedKey pre k) rnil)
  else (dv, addConflict (mkConflict (qualifiedKey pre k) v dv) rnil).
Proof. intros Hobj. unfold entryOut. destruct v; try done. by destruct dv. Qed.

Lemma isMap_both (v dv : value) :
  isMap v && isMap dv = true → ∃ sm dm, v = VObj sm ∧ dv = VObj dm.
Proof. destruct v; try done. destruct dv; try done. eauto. Qed.

(** Merging the same master a second time, without force, into what the
    first merge produced. *)
Lemma mergeInto_again src : ∀ dst ls ls' pre,
  let res1 := mergeInto dst src ls pre false rnil in
  let res2 := mergeInto res1.1 src ls' pre false rnil in
  res2.1 = res1.1 ∧ again res1.2 res2.2.
Proof.
  induction src as [src IH] using object_ind. intros dst ls ls' pre res1 res2.
  assert (Hent : ∀ k v, src !! k = Some v →
    let o1 := entryOut false ls pre k v (dst !! k) in
    let o2 := entryOut false ls' pre k v (res1.1 !! k) in
    o2.1 = o1.1 ∧ again o1.2 o2.2).
  { intros k v Hk. unfold res1. rewrite mergeInto_lookup, Hk. cbn zeta.
    destruct (dst !! k) as [dv|] eqn:Hd.
    - destruct (isMap v && isMap dv) eqn:Hobj.
      + apply isMap_both in Hobj as (sm & dm & -> & ->).
        rewrite entryOut_obj. cbn [fst snd]. rewrite entryOut_obj. cbn [fst snd].
        destruct (IH k sm Hk dm (localSub ls k) (localSub ls' k) (qualifiedKey pre k))
          as [-> ?]. done.
      + rewrite (entryOut_leaf false ls pre k v dv Hobj).
        destruct (DeepEqual v dv) eqn:He; cbn [fst snd];
          by rewrite (entryOut_leaf false ls' pre k v dv Hobj), He.
    - rewrite !entryOut_None. cbn [fst snd].
      destruct (isMap v && isMap v) eqn:Hobj.
      + apply isMap_both in Hobj as (sm & dm & -> & [= <-]).
        rewrite entryOut_obj. cbn [fst snd].
        destruct (mergeInto_self sm (localSub ls' k) (qualifiedKey pre k))
          as [-> (Ha&Hc&Hf)]. split; [done|].
        unfold again. by rewrite Ha, Hc, Hf.
      + rewrite (entryOut_leaf false ls' pre k v v Hobj), DeepEqual_refl. done. }
  split.
  - apply map_eq. intros k. unfold res2. rewrite mergeInto_lookup.
    destruct (src !! k) as [v|] eqn:Hk; [|done].
    destruct (Hent k v Hk) as [-> _]. unfold res1. by rewrite mergeInto_lookup, Hk.
  - unfold res2, res1. rewrite !mergeInto_result, !localOnlyLoop_eq.
    fold res1.
    assert (Hq : again (entryDeltas false ls pre dst (map_to_list src))
                       (entryDeltas false ls' pre res1.1 (map_to_list src))).
    { apply entryDeltas_rel; [done|apply again_rapp|].
      intros k v Hin%elem_of_map_to_list. by apply Hent. }
    destruct Hq as (Ha&Hf&Hf1&Hc). unfold again, rapp, rnil; simpl.
    by rewrite Ha, Hf, Hf1, Hc.
Qed.

(** C4: merging the same master, without force, into the tree a first merge
    without force produced adds no key, records the conflicts of the first run
    and no other, forces nothing, and returns its input tree. *)
Theorem C4_merge_idempotent (master local : object) :
  let r1 := Merge master local false in
  let r2 := Merge master (Merged r1) false in
  Added r2 = [] ∧ Conflicts r2 = Conflicts r1 ∧ Forced r2 = [] ∧
  Merged r2 = Merged r1.
Proof.
  intros r1 r2. unfold r2, r1. rewrite !Merge_unfold. cbn zeta. cbn [Merged].
  destruct (mergeInto_again master local (Some local)
              (Some (mergeInto local master (Some local) "" false rnil).1) "")
    as [Hm (Ha&Hf&Hf1&Hc)].
  cbn [Merged Conflicts Forced Added]. by rewrite Ha, Hf, Hc, Hm.
Qed.

(** ** Object against non-object *)

Lemma qualifiedKey_nil k : qualifiedKey "" k = k.
Proof. done. Qed.

Lemma mergeInto_singleton_conflict (k : string) (mv lv : value) :
  isMap mv ≠ isMap lv →
  mergeInto {[k := lv]} {[k := mv]} (Some {[k := lv]}) "" false rnil =
  ({[k := lv]}, mkResult ∅ [mkConflict k mv lv] [] [] [] []).
Proof.
  intros Hobj. rewrite mergeInto_unfold, map_fold_singleton.
  rewrite mergeEntry_entryOut, lookup_singleton_eq.
  rewrite entryOut_leaf by (by destruct mv, lv).
  assert (DeepEqual mv lv = false) as ->.
  { apply bool_decide_eq_false. by intros ->. }
  cbn [fst snd]. rewrite insert_singleton_eq.
  unfold localOnlyLoop. rewrite map_fold_singleton, lookup_singleton_eq.
  by rewrite qualifiedKey_nil.
Qed.



(** ** Keys only local has *)

Lemma localSub_Some (dst : object) k dm :
  dst !! k = Some (VObj dm) → localSub (Some dst) k = Some dm.
Proof. unfold localSub. by intros ->. Qed.

Lemma mergeInto_local_only force q : ∀ (src dst : object) pre k v,
  localOnlyAt src dst q k v →
  lookup_path (q ++ [k]) (mergeInto dst src (Some dst) pre force rnil).1 = Some v ∧
  qualifiedPath pre (q ++ [k]) ∈ LocalOnly (mergeInto dst src (Some dst) pre force rnil).2.
Proof.
  induction q as [|k0 q IH]; intros src dst pre k v (mq & lq & Hm & Hl & Hk & Hnk).
  - injection Hm as <-. injection Hl as <-. split.
    + simpl. by rewrite mergeInto_lookup, Hnk.
    + apply elem_of_LocalOnly_mergeInto. right. exists k.
      split; [by rewrite Hk|]. split; [|done].
      unfold isLocalOnly. by rewrite Hnk, Hk.
  - simpl in Hm, Hl.
    destruct (src !! k0) as [[| | | | |sm]|] eqn:Hs0; try done.
    destruct (dst !! k0) as [[| | | | |dm]|] eqn:Hd0; try done.
    destruct (IH sm dm (qualifiedKey pre k0) k v) as [Hp Hin].
    { by exists mq, lq. }
    change ((k0 :: q) ++ [k]) with (k0 :: (q ++ [k])). split.
    + rewrite lookup_path_cons by (by destruct q).
      rewrite mergeInto_lookup, Hs0, Hd0, entryOut_obj. cbn [fst].
      by rewrite (localSub_Some dst k0 dm).
    + apply elem_of_LocalOnly_mergeInto. left. exists k0, (VObj sm).
      split; [done|]. rewrite Hd0, entryOut_obj. cbn [snd].
      by rewrite (localSub_Some dst k0 dm).
Qed.

Lemma LocalOnly_entryOut_leaf (force : bool) (v dv : value) (key : string) :
  LocalOnly
    (if DeepEqual v dv then (dv, addMatching key rnil)
     else if force then (v, addForced key rnil)
     else (dv, addConflict (mkConflict key v dv) rnil)).2 = [].
Proof. by destruct (DeepEqual v dv); [|destruct force]. Qed.

Lemma mergeInto_LocalOnly_inv force src : ∀ (dst : object) pre s,
  s ∈ LocalOnly (mergeInto dst src (Some dst) pre force rnil).2 →
  ∃ q k v, localOnlyAt src dst q k v ∧ s = qualifiedPath pre (q ++ [k]).
Proof.
  induction src as [src IH] using object_ind. intros dst pre s.
  intros [(k0 & v0 & Hs0 & Hin)|(k & [v Hk] & Hlo & ->)]%elem_of_LocalOnly_mergeInto.
  - destruct (dst !! k0) as [dv|] eqn:Hd0.
    2:{ rewrite entryOut_None in Hin. by apply elem_of_nil in Hin. }
    destruct (isMap v0 && isMap dv) eqn:Hobj.
    2:{ rewrite entryOut_leaf, LocalOnly_entryOut_leaf in Hin by done.
        by apply elem_of_nil in Hin. }
    apply isMap_both in Hobj as (sm & dm & -> & ->).
    rewrite entryOut_obj in Hin. cbn [snd] in Hin.
    rewrite (localSub_Some dst k0 dm) in Hin by done.
    destruct (IH k0 sm Hs0 dm (qualifiedKey pre k0) s Hin)
      as (q & k & v & (mq & lq & Hm & Hl & Hk & Hnk) & ->).
    exists (k0 :: q), k, v. split; [|done].
    exists mq, lq. simpl. by rewrite Hs0, Hd0.
  - exists [], k, v. split; [|done]. exists src, dst.
    unfold isLocalOnly in Hlo. by destruct (src !! k).
Qed.

(** C6 (as the code has it): at every level that master and local both
    reach through objects, a key that local holds and master lacks keeps its
    value in the merged tree and is recorded in LocalOnly, with or without
    force; and every entry of LocalOnly is such a key, so a key that came from
    master is never recorded there. *)
Theorem C6_local_only_preserved (master local : object) (force : bool) :
  let r := Merge master local force in
  (∀ q k v, localOnlyAt master local q k v →
     lookup_path (q ++ [k]) (Merged r) = Some v ∧
     qualifiedPath "" (q ++ [k]) ∈ LocalOnly r) ∧
  (∀ s, s ∈ LocalOnly r →
     ∃ q k v, localOnlyAt master local q k v ∧ s = qualifiedPath "" (q ++ [k])).
Proof.
  intros r. unfold r. rewrite Merge_unfold. cbn zeta. cbn [Merged LocalOnly]. split.
  - intros q k v Hlo.
    destruct (mergeInto_local_only force q master local "" k v Hlo) as [Hp Hin].
    split; [done|]. by rewrite sortStrings_perm.
  - intros s Hin. rewrite sortStrings_perm in Hin.
    by apply (mergeInto_LocalOnly_inv force master local "").
Qed.

Lemma C6_local_only_preserved_witness :
  let master : object :=
    {[ "masterKey" := VStr "value"; "nested" := VObj {[ "m" := VNum 1 ]} ]} in
  let local : object :=
    {[ "masterKey" := VStr "value"; "localOnly" := VStr "mine";
       "nested" := VObj {[ "l" := VNum 2 ]} ]} in
  lookup_path ["nested"; "l"] (Merged (Merge master local true)) = Some (VNum 2) ∧
  "nested.l" ∈ LocalOnly (Merge master local true).
Proof.
  intros master local.
  destruct (C6_local_only_preserved master local true) as [Hkeep _].
  apply (Hkeep ["nested"] "l" (VNum 2)).
  exists {[ "m" := VNum 1 ]}, {[ "l" := VNum 2 ]}.
  repeat split; vm_compute; reflexivity.
Defined.

(** C6 as stated fails: with master [{"a": "s"}], local [{"a": {"x": 1}}]
    and force, the merged tree is [{"a": "s"}]: the local key ["a.x"], which
    master does not have, is gone and is not in LocalOnly. *)
Lemma C6_local_only_as_stated_fails :
  ¬ local_only_as_stated {[ "a" := VStr "s" ]} {[ "a" := VObj {[ "x" := VNum 1 ]} ]} true.
Proof.
  intros H. destruct (H ["a"; "x"] (VNum 1)) as [Hp _]; [done..|].
  vm_compute in Hp. discriminate.
Qed.

End MergeFacts.





(** * The merge engine and its inputs *)

Module MergeHeapFacts.
Import MergeHeap.

(** On the example, the store model and the value model record the same
    keys and build the same tree. *)
Example nested_agrees :
  match Merge 3 nested_master nested_local false nested_heap with
  | Some (h, r) =>
      let r' := Merge.Merge
        {[ "outer" := Json.VObj {[ "new" := Json.VNum 1 ]} ]}
        {[ "outer" := Json.VObj {[ "old" := Json.VNum 2 ]} ]} false in
      Added r = Merge.Added r' ∧ LocalOnly r = Merge.LocalOnly r' ∧
      read 3 h (HMap (Merged r)) = Some (Json.VObj (Merge.Merged r'))
  | None => False
  end.
Proof. vm_compute. repeat split. Qed.

(** C2 (failing input): [Merge] returns a result, and leaves the map of
    master and the top-level map of local as they were, but the nested map
    of local is the one the merged tree holds, and [mergeInto] has added the
    master key to it: read after the call, local is
    [{"outer": {"old": 2, "new": 1}}]. *)
Theorem C2_Merge_mutates_nested_local :
  match Merge 3 nested_master nested_local false nested_heap with
  | Some (h, r) =>
      h !! nested_master = nested_heap !! nested_master ∧
      h !! nested_local = nested_heap !! nested_local ∧
      read 3 nested_heap (HMap nested_local) =
        Some (Json.VObj {[ "outer" := Json.VObj {[ "old" := Json.VNum 2 ]} ]}) ∧
      read 3 h (HMap nested_local) =
        Some (Json.VObj {[ "outer" := Json.VObj
                (<[ "new" := Json.VNum 1 ]> {[ "old" := Json.VNum 2 ]}) ]}) ∧
      size <$> nested_heap !! 3 = Some 1 ∧
      size <$> h !! 3 = Some 2
  | None => False
  end.
Proof. vm_compute. repeat split. Qed.

End MergeHeapFacts.

(** * Properties of the directory sync engine *)

Module DirSyncFacts.
Import DirSync.

(** ** Running the calls *)

Lemma bind_unfold {A B} (m : M A) (k : A → M B) w :
  (m ≫= k) w = match m w with
               | (w', inr x) => k x w'
               | (w', inl e) => (w', inl e)
               end.
Proof. done. Qed.

(** ** A source that is not there *)

Lemma ReadDir_missing (dir : path) (w : world) :
  files w !! dir = None →
  files (ReadDir dir w).1 = files w ∧ log (ReadDir dir w).1 = log w ∧
  ((ReadDir dir w).2 = inl (resolveError (files w) [] dir) ∧ nextOk w ∨
   (ReadDir dir w).2 = inl EIO ∧ ¬ nextOk w).
Proof.
  intros Hd. unfold ReadDir. rewrite bind_unfold. unfold getFiles. rewrite Hd.
  unfold mayFail, fault, nextOk. rewrite !bind_unfold.
  destruct (faults w) as [|[n|] fs']; cbn.
  - repeat split; try done. by left.
  - repeat split; try done. right. split; [done|]. intros H. by apply (H n).
  - repeat split; try done. by left.
Qed.

Lemma resolveError_cases (f : fs) (rest : list string) : ∀ base,
  resolveError f base rest = ENOENT ∨ resolveError f base rest = ENOTDIR.
Proof.
  induction rest as [|c rest IH]; intros base; simpl; [by left|].
  destruct (f !! base) as [[| |]|]; auto.
Qed.

(** C8 (as the code has it): the tree holds nothing at the source path.
    When [os.ReadDir] reports that as [ErrNotExist], that is when no component
    of the path is a regular file and the call does not fail for another
    reason, [Sync] returns the empty result and no error, whatever the
    destination and the force flag, and changes nothing, not even creating
    the destination. When a component of the path is a regular file,
    [os.ReadDir] fails with ENOTDIR and [Sync] returns an error with the empty
    result, the tree unchanged. *)
Theorem C8_missing_source_is_empty (fuel : nat) (src dst : path) (force : bool)
    (w : world) :
  files w !! src = None →
  (resolveError (files w) [] src = ENOENT → nextOk w →
     (Sync fuel src dst force w).2 = (mkResult [] [] [], None) ∧
     files (Sync fuel src dst force w).1 = files w ∧
     log (Sync fuel src dst force w).1 = log w) ∧
  (resolveError (files w) [] src = ENOTDIR →
     (∃ e, (Sync fuel src dst force w).2 = (mkResult [] [] [], Some e)) ∧
     files (Sync fuel src dst force w).1 = files w ∧
     log (Sync fuel src dst force w).1 = log w).
Proof.
  intros Hsrc. unfold Sync.
  destruct (ReadDir_missing src w Hsrc) as (Hf & Hl & Hr).
  destruct (ReadDir src w) as [w1 r1]. cbn [fst snd] in *. split.
  - intros Hres Hok. destruct Hr as [[-> _]|[_ Hno]]; [|done].
    by rewrite Hres.
  - intros Hres. destruct Hr as [[-> _]|[-> _]].
    + rewrite Hres. cbn. eauto.
    + cbn. eauto.
Qed.

Lemma C8_missing_source_is_empty_witness :
  (Sync 1 ["does"; "not"; "exist"] ["dst"] false
     (mkWorld {[ [] := Dir 493 ]} [] [] [])).2 = (mkResult [] [] [], None).
Proof.
  destruct (C8_missing_source_is_empty 1 ["does"; "not"; "exist"] ["dst"] false
              (mkWorld {[ [] := Dir 493 ]} [] [] [])) as [Hempty _];
    [reflexivity|].
  apply Hempty; [vm_compute; reflexivity|].
  intros n. simpl. discriminate.
Defined.

(** C8 as stated fails: with a regular file [f] and the source path
    [f/sub], the tree holds nothing at the source, yet [Sync] returns an
    error. *)
Lemma C8_missing_source_as_stated_fails :
  ¬ missing_source_as_stated 1 ["f"; "sub"] ["dst"] false file_above_world.
Proof.
  intros H. unfold missing_source_as_stated in H.
  assert (Hnone : files file_above_world !! ["f"; "sub"] = None)
    by (vm_compute; reflexivity).
  specialize (H Hnone). vm_compute in H. discriminate H.
Qed.

(** ** Rules for [hoare] *)

Lemma trace_app (f : fs) (l1 l2 : list event) (f'' : fs) :
  trace f (l1 ++ l2) f'' ↔ ∃ f', trace f l1 f' ∧ trace f' l2 f''.
Proof.
  revert f. induction l1 as [|e l1 IH]; intros f; simpl.
  - split; [intros ?; by exists f|by intros (f' & -> & ?)].
  - rewrite IH. naive_solver.
Qed.

Section rules.
Context {A : Type} (ev : event → Prop).
Implicit Types (Q : A → fs → Prop) (E : error → fs → Prop).

Lemma hoare_ret (f0 : fs) (x : A) Q E : Q x f0 → hoare ev f0 (mret x) Q E.
Proof. intros HQ w <-. exists []. by repeat split. Qed.

Lemma hoare_fail (f0 : fs) e Q E : E e f0 → hoare ev f0 (fail e) Q E.
Proof. intros HE w <-. exists []. by repeat split. Qed.

Lemma hoare_conseq (f0 : fs) (m : M A) Q Q' E E' :
  hoare ev f0 m Q E →
  (∀ x f, Q x f → Q' x f) → (∀ e f, E e f → E' e f) →
  hoare ev f0 m Q' E'.
Proof.
  intros Hm HQ HE w Hw. destruct (Hm w Hw) as (evs & ? & ? & ? & Hpost).
  exists evs. repeat split; try done. destruct ((m w).2); auto.
Qed.

Lemma hoare_bind {B : Type} (f0 : fs) (m : M B) (k : B → M A) (R : B → fs → Prop) Q E :
  hoare ev f0 m R E →
  (∀ x f1, R x f1 → hoare ev f1 (k x) Q E) →
  hoare ev f0 (m ≫= k) Q E.
Proof.
  intros Hm Hk w Hw. destruct (Hm w Hw) as (evs1 & Hl1 & Ht1 & Hf1 & Hpost).
  rewrite bind_unfold. destruct (m w) as [w1 [e|x]]; simpl in *.
  - exists evs1. by repeat split.
  - destruct (Hk x _ Hpost w1 eq_refl) as (evs2 & Hl2 & Ht2 & Hf2 & Hpost2).
    exists (evs2 ++ evs1). rewrite Hl2, Hl1, reverse_app.
    split; [by rewrite (assoc_L (++))|]. split; [apply trace_app; eauto|].
    split; [by apply Forall_app|done].
Qed.

Lemma hoare_onError (f0 : fs) (m : M A) (cleanup : M unit) Q E (E1 : error → fs → Prop) :
  hoare ev f0 m Q E1 →
  (∀ e f1, E1 e f1 → hoare ev f1 cleanup (λ _, E e) (λ _, E e)) →
  hoare ev f0 (onError m cleanup) Q E.
Proof.
  intros Hm Hc w Hw. destruct (Hm w Hw) as (evs1 & Hl1 & Ht1 & Hf1 & Hpost).
  unfold onError, ignore. destruct (m w) as [w1 [e|x]]; simpl in *.
  - destruct (Hc e _ Hpost w1 eq_refl) as (evs2 & Hl2 & Ht2 & Hf2 & Hpost2).
    exists (evs2 ++ evs1). rewrite Hl2, Hl1, reverse_app.
    split; [by rewrite (assoc_L (++))|]. split; [apply trace_app; eauto|].
    split; [by apply Forall_app|]. by destruct ((cleanup w1).2).
  - exists evs1. by repeat split.
Qed.
End rules.

Lemma hoare_getFiles (ev : event → Prop) (f0 : fs) (Q : fs → fs → Prop) E :
  Q f0 f0 → hoare ev f0 getFiles Q E.
Proof. intros HQ w <-. exists []. by repeat split. Qed.

Lemma hoare_fault (ev : event → Prop) (f0 : fs) (Q : option nat → fs → Prop) E :
  (∀ b, Q b f0) → hoare ev f0 fault Q E.
Proof.
  intros HQ w <-. exists []. unfold fault.
  destruct (faults w); simpl; repeat split; auto.
Qed.

Lemma hoare_mayFail (ev : event → Prop) (f0 : fs) (Q : unit → fs → Prop) (E : error → fs → Prop) :
  Q () f0 → E EIO f0 → hoare ev f0 mayFail Q E.
Proof.
  intros HQ HE. unfold mayFail. eapply hoare_bind.
  - apply (hoare_fault _ _ (λ _ f, f = f0)). done.
  - intros [n|] f1 ->; [by apply hoare_fail|by apply hoare_ret].
Qed.

Lemma hoare_update (ev : event → Prop) (f0 : fs) (o : op) (p : path) (f' : fs) (Q : unit → fs → Prop) E :
  ev (mkEvent o p f0 f') → Q () f' → hoare ev f0 (update o p f') Q E.
Proof.
  intros Hev HQ w <-. exists [mkEvent o p (files w) f']. simpl.
  repeat split; try done. by apply Forall_singleton.
Qed.

(** ** The calls of the [os] package *)

Section calls.
Context (ev : event → Prop).

Lemma hoare_Open (f0 : fs) (p : path) (Q : string * N → fs → Prop)
    (E : error → fs → Prop) :
  (∀ data mode, f0 !! p = Some (File data mode) → Q (data, mode) f0) →
  (∀ e, E e f0) →
  hoare ev f0 (Open p) Q E.
Proof.
  intros HQ HE. unfold Open. eapply hoare_bind.
  { apply (hoare_getFiles _ _ (λ x f, x = f0 ∧ f = f0)). done. }
  intros f f1 [-> ->]. destruct (f0 !! p) as [[data mode|m|]|] eqn:Hp;
    try (by apply hoare_fail).
  eapply hoare_bind; [apply (hoare_mayFail _ _ (λ _ f, f = f0) E); auto|].
  intros _ f1 ->. apply hoare_ret. auto.
Qed.

Lemma hoare_Stat (f0 : fs) (h : string * N) (Q : N → fs → Prop)
    (E : error → fs → Prop) :
  Q h.2 f0 → E EIO f0 → hoare ev f0 (Stat h) Q E.
Proof.
  intros HQ HE. unfold Stat.
  eapply hoare_bind; [apply (hoare_mayFail _ _ (λ _ f, f = f0) E); auto|].
  intros _ f1 ->. by apply hoare_ret.
Qed.

Lemma pickTemp_Some (f : fs) (dir : path) pat cands t cs :
  pickTemp f dir pat cands = Some (t, cs) →
  ∃ c, t = dir ++ [pat +:+ c] ∧ f !! t = None.
Proof.
  induction cands as [|c cands IH]; [done|]. simpl.
  destruct (f !! (dir ++ [pat +:+ c])) eqn:Hc; [done|].
  intros [= <- <-]. eauto.
Qed.

Lemma hoare_drawTemp (f0 : fs) (dir : path) (pat : string)
    (Q : option path → fs → Prop) (E : error → fs → Prop) :
  (∀ c, f0 !! (dir ++ [pat +:+ c]) = None → Q (Some (dir ++ [pat +:+ c])) f0) →
  Q None f0 →
  hoare ev f0 (drawTemp dir pat) Q E.
Proof.
  intros HQ HN w <-. exists []. unfold drawTemp.
  destruct (pickTemp _ _ _ _) as [[t cs]|] eqn:Hpick; simpl; repeat split; auto.
  apply pickTemp_Some in Hpick as (c & -> & Hnone). auto.
Qed.

Lemma hoare_CreateTemp (f0 : fs) (dir : path) (pat : string)
    (Q : path → fs → Prop) (E : error → fs → Prop) :
  (∀ c, let t := dir ++ [pat +:+ c] in
        f0 !! t = None →
        ev (mkEvent OpCreateTemp t f0 (<[t := File "" 384]> f0)) ∧
        Q t (<[t := File "" 384]> f0)) →
  (∀ e, E e f0) →
  hoare ev f0 (CreateTemp dir pat) Q E.
Proof.
  intros HQ HE. unfold CreateTemp. eapply hoare_bind.
  { apply (hoare_getFiles _ _ (λ x f, x = f0 ∧ f = f0)). done. }
  intros f f1 [-> ->]. destruct (f0 !! dir) as [[| m |]|] eqn:Hd;
    try (by apply hoare_fail).
  eapply hoare_bind; [apply (hoare_mayFail _ _ (λ _ f, f = f0) E); auto|].
  intros _ f1 ->. eapply hoare_bind.
  { apply (hoare_drawTemp _ _ _
      (λ t f, f = f0 ∧ ∀ t', t = Some t' → ∃ c, t' = dir ++ [pat +:+ c] ∧ f0 !! t' = None)).
    - intros c Hc. split; [done|]. intros t' [= <-]. eauto.
    - by split. }
  intros [t|] f1 [-> Ht]; [|by apply hoare_fail].
  destruct (Ht t eq_refl) as (c & -> & Hnone). destruct (HQ c Hnone).
  eapply hoare_bind.
  - apply (hoare_update _ _ _ _ _
      (λ _ f, f = <[dir ++ [pat +:+ c] := File "" 384]> f0)); done.
  - intros _ f1 ->. by apply hoare_ret.
Qed.

Lemma hoare_Chmod (f0 : fs) (t : path) (mode : N) (Q : unit → fs → Prop)
    (E : error → fs → Prop) :
  (∀ data m, f0 !! t = Some (File data m) →
     ev (mkEvent OpChmod t f0 (<[t := File data mode]> f0)) ∧
     Q () (<[t := File data mode]> f0)) →
  (∀ e, E e f0) →
  hoare ev f0 (Chmod t mode) Q E.
Proof.
  intros HQ HE. unfold Chmod.
  eapply hoare_bind; [apply (hoare_mayFail _ _ (λ _ f, f = f0) E); auto|].
  intros _ f1 ->. eapply hoare_bind.
  { apply (hoare_getFiles _ _ (λ x f, x = f0 ∧ f = f0)). done. }
  intros f f1 [-> ->]. destruct (f0 !! t) as [[data m| |]|] eqn:Ht;
    try (by apply hoare_fail).
  destruct (HQ data m eq_refl). by apply hoare_update.
Qed.

Lemma hoare_Copy (f0 : fs) (t : path) (data : string) (Q : unit → fs → Prop)
    (E : error → fs → Prop) :
  (∀ d m, f0 !! t = Some (File d m) →
     (ev (mkEvent OpWrite t f0 (<[t := File data m]> f0)) ∧
      Q () (<[t := File data m]> f0)) ∧
     (∀ n, ev (mkEvent OpWrite t f0 (<[t := File (String.substring 0 n data) m]> f0)) ∧
           E EIO (<[t := File (String.substring 0 n data) m]> f0))) →
  (∀ e, E e f0) →
  hoare ev f0 (Copy t data) Q E.
Proof.
  intros HQ HE. unfold Copy. eapply hoare_bind.
  { apply (hoare_fault _ _ (λ _ f, f = f0)). done. }
  intros b f1 ->. eapply hoare_bind.
  { apply (hoare_getFiles _ _ (λ x f, x = f0 ∧ f = f0)). done. }
  intros f f1 [-> ->]. destruct (f0 !! t) as [[d m| |]|] eqn:Ht;
    try (by apply hoare_fail).
  destruct (HQ d m eq_refl) as [[Hev HQt] Hpart]. destruct b as [n|].
  - destruct (Hpart n). eapply hoare_bind.
    + apply (hoare_update _ _ _ _ _ (λ _ f, f = <[t:=File (String.substring 0 n data) m]> f0));
        done.
    + intros _ f1 ->. by apply hoare_fail.
  - by apply hoare_update.
Qed.

Lemma hoare_Close (f0 : fs) (Q : unit → fs → Prop) (E : error → fs → Prop) :
  Q () f0 → E EIO f0 → hoare ev f0 Close Q E.
Proof. apply hoare_mayFail. Qed.

Lemma hoare_Rename (f0 : fs) (old new : path) (Q : unit → fs → Prop)
    (E : error → fs → Prop) :
  (∀ n, f0 !! old = Some n → (∀ m, f0 !! new ≠ Some (Dir m)) →
     ev (mkEvent (OpRename old) new f0 (<[new := n]> (delete old f0))) ∧
     Q () (<[new := n]> (delete old f0))) →
  (∀ e, E e f0) →
  hoare ev f0 (Rename old new) Q E.
Proof.
  intros HQ HE. unfold Rename. eapply hoare_bind.
  { apply (hoare_getFiles _ _ (λ x f, x = f0 ∧ f = f0)). done. }
  intros f f1 [-> ->]. destruct (f0 !! old) as [n|] eqn:Ho;
    [|by apply hoare_fail].
  assert (Hgo : (∀ m, f0 !! new ≠ Some (Dir m)) →
    hoare ev f0 (_ ← mayFail; update (OpRename old) new (<[new:=n]> (delete old f0))) Q E).
  { intros Hnd. destruct (HQ n eq_refl Hnd).
    eapply hoare_bind; [apply (hoare_mayFail _ _ (λ _ f, f = f0) E); auto|].
    intros _ f1 ->. by apply hoare_update. }
  destruct (f0 !! new) as [[| |]|] eqn:Hn; try (by apply Hgo).
  by apply hoare_fail.
Qed.

Lemma hoare_Remove (f0 : fs) (p : path) (Q : unit → fs → Prop)
    (E : error → fs → Prop) :
  ev (mkEvent OpRemove p f0 (delete p f0)) → Q () (delete p f0) → E EIO f0 →
  hoare ev f0 (Remove p) Q E.
Proof.
  intros Hev HQ HE. unfold Remove.
  eapply hoare_bind; [apply (hoare_mayFail _ _ (λ _ f, f = f0) E); auto|].
  intros _ f1 ->. eapply hoare_bind.
  { apply (hoare_getFiles _ _ (λ x f, x = f0 ∧ f = f0)). done. }
  intros f f1 [-> ->]. by apply hoare_update.
Qed.

Lemma hoare_ReadDir (f0 : fs) (dir : path)
    (Q : list (string * node) → fs → Prop) (E : error → fs → Prop) :
  (∀ m, f0 !! dir = Some (Dir m) → Q (entries f0 dir) f0) →
  (∀ e, (e = ENOENT → ∀ m, f0 !! dir ≠ Some (Dir m)) → E e f0) →
  hoare ev f0 (ReadDir dir) Q E.
Proof.
  intros HQ HE. unfold ReadDir. eapply hoare_bind.
  { apply (hoare_getFiles _ _ (λ x f, x = f0 ∧ f = f0)). done. }
  intros f f1 [-> ->]. destruct (f0 !! dir) as [[| m |]|] eqn:Hd.
  - by apply hoare_fail, HE.
  - eapply hoare_bind;
      [apply (hoare_mayFail _ _ (λ _ f, f = f0) E); [done|by apply HE]|].
    intros _ f1 ->. apply hoare_ret. eauto.
  - eapply hoare_bind;
      [apply (hoare_mayFail _ _ (λ _ f, f = f0) E); [done|by apply HE]|].
    intros _ f1 ->. by apply hoare_fail, HE.
  - eapply hoare_bind;
      [apply (hoare_mayFail _ _ (λ _ f, f = f0) E); [done|by apply HE]|].
    intros _ f1 ->. by apply hoare_fail, HE.
Qed.

Lemma hoare_Lstat (f0 : fs) (p : path) (Q : node → fs → Prop)
    (E : error → fs → Prop) :
  (∀ n, f0 !! p = Some n → Q n f0) →
  (∀ e, (e = ENOENT → f0 !! p = None) → E e f0) →
  hoare ev f0 (Lstat p) Q E.
Proof.
  intros HQ HE. unfold Lstat. eapply hoare_bind.
  { apply (hoare_getFiles _ _ (λ x f, x = f0 ∧ f = f0)). done. }
  intros f f1 [-> ->]. destruct (f0 !! p) as [n|] eqn:Hp.
  - eapply hoare_bind; [apply (hoare_mayFail _ _ (λ _ f, f = f0) E); auto|].
    + by apply HE.
    + intros _ f1 ->. apply hoare_ret. eauto.
  - destruct (f0 !! parent p) as [[| |]|]; by apply hoare_fail, HE.
Qed.
End calls.

(** ** [copyFile] *)

Lemma parent_snoc (dir : path) (x : string) : parent (dir ++ [x]) = dir.
Proof. unfold parent. apply removelast_last. Qed.

Lemma tempNamed_snoc (dir : path) (c : string) : tempNamed (dir ++ [".copy-" +:+ c]).
Proof. exists c. by rewrite last_snoc. Qed.

Lemma atomic_only_temp (src dst : path) (o : op) (t : path) (f f' : fs) :
  tempNamed t → (∀ P, P ≠ t → f' !! P = f !! P) →
  atomic_event src dst (mkEvent o t f f').
Proof.
  intros Ht Hsame P HP Hne. simpl in Hne. destruct (decide (P = t)) as [->|HPt]; [done|].
  by rewrite Hsame in Hne.
Qed.

Lemma atomic_mkdir (src dst : path) (q : path) (f : fs) (perm : N) :
  f !! q = None → atomic_event src dst (mkEvent OpMkdir q f (<[q := Dir perm]> f)).
Proof.
  intros Hq P HP Hne. simpl in *. left. destruct (decide (P = q)) as [->|HPq].
  - rewrite lookup_insert_eq. eauto.
  - by rewrite lookup_insert_ne in Hne.
Qed.

Lemma copyFile_hoare (src dst : path) (f0 : fs) :
  hoare (atomic_event src dst) f0 (copyFile src dst)
    (λ _ f, sharp dst f0 f ∧
            ∃ data mode, f0 !! src = Some (File data mode) ∧
                         f !! dst = Some (File data mode))
    (λ _ f, sharp dst f0 f ∧ (is_Some (f0 !! dst) → f !! dst = f0 !! dst)).
Proof.
  assert (Hrefl : sharp dst f0 f0 ∧ (is_Some (f0 !! dst) → f0 !! dst = f0 !! dst)).
  { split; [|done]. intros P _. by left. }
  unfold copyFile. eapply hoare_bind.
  { apply (hoare_Open _ _ _ (λ h f, f = f0 ∧ f0 !! src = Some (File h.1 h.2))); auto. }
  intros [data mode] f1 [-> Hsrc]. simpl in Hsrc. eapply hoare_bind.
  { apply (hoare_Stat _ _ _ (λ m f, f = f0 ∧ m = mode)); auto. }
  intros m f1 [-> ->]. eapply hoare_bind.
  { apply (hoare_CreateTemp _ _ _ _
      (λ t f, ∃ c, t = parent dst ++ [".copy-" +:+ c] ∧ f0 !! t = None ∧
                   f = <[t := File "" 384]> f0)); [|auto].
    intros c t Hnone. split; [|by eauto].
    apply atomic_only_temp; [apply tempNamed_snoc|].
    intros P HP. by rewrite lookup_insert_ne. }
  intros t f1 (c & Ht & Hnone & ->).
  assert (Htemp : tempNamed t) by (subst t; apply tempNamed_snoc).
  assert (Hpar : parent t = parent dst) by (subst t; apply parent_snoc).
  clear Ht. cbn [fst].
  assert (Hts : t ≠ src) by (intros ->; congruence).
  pose (J := λ f : fs, ∀ P, P ≠ t → f !! P = f0 !! P).
  assert (HJE : ∀ f, J f →
    sharp dst f0 f ∧ (is_Some (f0 !! dst) → f !! dst = f0 !! dst)).
  { intros f HJ. split.
    - intros P HP. destruct (decide (P = t)) as [->|HPt]; [by right|].
      left. by apply HJ.
    - intros [n Hn]. apply HJ. intros ->. congruence. }
  assert (HJins : ∀ f n, J f → J (<[t := n]> f)).
  { intros f n HJ P HP. rewrite lookup_insert_ne by done. by apply HJ. }
  assert (HJdel : ∀ f, J f → J (delete t f)).
  { intros f HJ P HP. rewrite lookup_delete_ne by done. by apply HJ. }
  assert (HJ1 : J (<[t := File "" 384]> f0)) by (by apply HJins).
  assert (Hevt : ∀ o f n, atomic_event src dst (mkEvent o t f (<[t := n]> f))).
  { intros o f n. apply atomic_only_temp; [done|].
    intros P HP. by rewrite lookup_insert_ne. }
  eapply (hoare_onError _ _ _ _ _ _ (λ _ f, J f)).
  - eapply hoare_bind.
    { eapply (hoare_onError _ _ _ _
        (λ _ f, J f ∧ ∃ d, f !! t = Some (File d mode)) _ (λ _ f, J f)).
      - apply hoare_Chmod; [|done]. intros d m0 Hd. split; [apply Hevt|].
        split; [by apply HJins|]. exists d. by rewrite lookup_insert_eq.
      - intros e f1 HJf. by apply hoare_Close. }
    intros _ f2 [HJ2 [d Hd]]. eapply hoare_bind.
    { eapply (hoare_onError _ _ _ _
        (λ _ f, J f ∧ f !! t = Some (File data mode)) _ (λ _ f, J f)).
      - apply hoare_Copy; [|done]. intros d' m' Hd'.
        assert (m' = mode) as -> by congruence.
        split; [split; [apply Hevt|]|].
        + split; [by apply HJins|]. by rewrite lookup_insert_eq.
        + intros n. split; [apply Hevt|by apply HJins].
      - intros e f1 HJf. by apply hoare_Close. }
    intros _ f3 [HJ3 Ht3]. eapply hoare_bind.
    { apply (hoare_Close _ _ (λ _ f, f = f3)); done. }
    intros _ f1 ->. apply hoare_Rename; [|done].
    intros n Hn Hnd. assert (n = File data mode) as -> by congruence. split.
    + intros P HP Hne. simpl in *. right.
      assert (P ≠ t) by (by intros ->).
      destruct (decide (P = dst)) as [->|HPd].
      2:{ by rewrite lookup_insert_ne, lookup_delete_ne in Hne. }
      exists t, [], data, mode. rewrite !app_nil_r, lookup_insert_eq.
      repeat split; try done. by rewrite HJ3.
    + split.
      * intros P HP. left. rewrite lookup_insert_ne by done.
        destruct (decide (P = t)) as [->|HPt].
        -- by rewrite lookup_delete_eq.
        -- rewrite lookup_delete_ne by done. by apply HJ3.
      * exists data, mode. by rewrite lookup_insert_eq.
  - intros e f1 HJf. apply hoare_Remove.
    + apply atomic_only_temp; [done|]. intros P HP. by rewrite lookup_delete_ne.
    + apply HJE. by apply HJdel.
    + by apply HJE.
Qed.

(** ** Composing runs *)

Lemma steps_refl (ev : event → Prop) (w : world) : steps ev w w.
Proof. exists []. by repeat split. Qed.

Lemma steps_trans (ev : event → Prop) (w1 w2 w3 : world) :
  steps ev w1 w2 → steps ev w2 w3 → steps ev w1 w3.
Proof.
  intros (evs1 & Hl1 & Ht1 & Hf1) (evs2 & Hl2 & Ht2 & Hf2).
  exists (evs2 ++ evs1). rewrite Hl2, Hl1, reverse_app.
  split; [by rewrite (assoc_L (++))|]. split; [apply trace_app; eauto|].
  by apply Forall_app.
Qed.

Lemma steps_mono (ev ev' : event → Prop) (w w' : world) :
  (∀ e, ev e → ev' e) → steps ev w w' → steps ev' w w'.
Proof.
  intros Hev (evs & ? & ? & Hf). exists evs. repeat split; try done.
  eapply Forall_impl; eauto.
Qed.

Lemma hoare_run {A : Type} (ev : event → Prop) (f0 : fs) (m : M A)
    (Q : A → fs → Prop) (E : error → fs → Prop) (w : world) :
  hoare ev f0 m Q E → files w = f0 →
  steps ev w (m w).1 ∧
  match (m w).2 with
  | inr x => Q x (files (m w).1)
  | inl e => E e (files (m w).1)
  end.
Proof.
  intros Hm <-. destruct (Hm w eq_refl) as (evs & ? & ? & ? & ?).
  split; [by exists evs|done].
Qed.

Lemma hoare_ev_mono {A : Type} (ev ev' : event → Prop) (f0 : fs) (m : M A)
    (Q : A → fs → Prop) (E : error → fs → Prop) :
  (∀ e, ev e → ev' e) → hoare ev f0 m Q E → hoare ev' f0 m Q E.
Proof.
  intros Hev Hm w Hw. destruct (Hm w Hw) as (evs & ? & ? & Hf & ?).
  exists evs. repeat split; try done. eapply Forall_impl; eauto.
Qed.

Lemma atomic_event_sub (s d : path) (x : string) (e : event) :
  atomic_event (s ++ [x]) (d ++ [x]) e → atomic_event s d e.
Proof.
  intros He P HP Hne. destruct (He P HP Hne) as [?|(t & rel & data & mode & H)];
    [by left|right].
  exists t, (x :: rel), data, mode.
  rewrite <- !(assoc_L (++)) in H. exact H.
Qed.

(** ** [os.MkdirAll] *)

Lemma mkrel_refl (D : path) (f : fs) : mkrel D f f.
Proof. intros P. by left. Qed.

Lemma mkrel_trans (D : path) (f0 f1 f2 : fs) :
  mkrel D f0 f1 → mkrel D f1 f2 → mkrel D f0 f2.
Proof.
  intros H1 H2 P. destruct (H1 P) as [E1|[? ?]]; [|by right].
  destruct (H2 P) as [E2|[? ?]]; [left; congruence|right]. split; [congruence|done].
Qed.

Lemma mkdirFrom_hoare (src dst : path) (rest : list string) :
  ∀ (base : path) (perm : N) (budget : option nat) (f0 : fs),
  hoare (atomic_event src dst) f0 (mkdirFrom base rest perm budget)
    (λ _ f, mkrel (base ++ rest) f0 f) (λ _ f, mkrel (base ++ rest) f0 f).
Proof.
  induction rest as [|c rest IH]; intros base perm budget f0; simpl.
  { apply hoare_ret, mkrel_refl. }
  eapply hoare_bind.
  { apply (hoare_getFiles _ _ (λ x f, x = f0 ∧ f = f0)). done. }
  intros f f1 [-> ->].
  assert (Hnext : ∀ b (f : fs), mkrel (base ++ c :: rest) f0 f →
    hoare (atomic_event src dst) f (mkdirFrom (base ++ [c]) rest perm b)
      (λ _ f', mkrel (base ++ c :: rest) f0 f') (λ _ f', mkrel (base ++ c :: rest) f0 f')).
  { intros b f Hf. eapply hoare_conseq; [apply IH|..];
      intros ? f' Hf'; cbn beta in Hf'; (eapply mkrel_trans; [done|]);
      by rewrite <- (assoc_L (++)) in Hf'. }
  destruct (f0 !! (base ++ [c])) as [[| |]|] eqn:Hq;
    try (apply hoare_fail, mkrel_refl).
  { apply Hnext, mkrel_refl. }
  assert (Hmk : hoare (atomic_event src dst) f0
    (_ ← update OpMkdir (base ++ [c]) (<[base ++ [c] := Dir perm]> f0);
     mkdirFrom (base ++ [c]) rest perm (pred <$> budget))
    (λ _ f', mkrel (base ++ c :: rest) f0 f') (λ _ f', mkrel (base ++ c :: rest) f0 f')).
  { eapply hoare_bind.
    - apply (hoare_update _ _ _ _ _ (λ _ f, f = <[base ++ [c] := Dir perm]> f0));
        [by apply atomic_mkdir|done].
    - intros _ f1 ->. apply Hnext. intros P.
      destruct (decide (P = base ++ [c])) as [->|HP].
      + right. split; [done|]. exists rest. by rewrite <- (assoc_L (++)).
      + left. by rewrite lookup_insert_ne. }
  destruct budget as [[|n]|]; [apply hoare_fail, mkrel_refl|exact Hmk..].
Qed.

Lemma mkdirDst_hoare (src dst : path) (D : path) (f0 : fs) :
  hoare (atomic_event src dst) f0 (mkdirDst D)
    (λ _ f, mkrel D f0 f) (λ _ f, mkrel D f0 f).
Proof.
  assert (Hmk : hoare (atomic_event src dst) f0 (MkdirAll D 488)
    (λ _ f, mkrel D f0 f) (λ _ f, mkrel D f0 f)).
  { unfold MkdirAll. eapply hoare_bind.
    { apply (hoare_fault _ _ (λ _ f, f = f0)). done. }
    intros b f1 ->. apply (mkdirFrom_hoare src dst D [] 488 b f0). }
  intros w Hw. destruct (Hmk w Hw) as (evs & Hl & Ht & Hf & Hpost).
  exists evs. unfold mkdirDst.
  destruct (MkdirAll D 488 w) as [w' [[]|[]]]; simpl in *; by repeat split.
Qed.

(** ** [copyDir] and [Sync], for any relation the copies respect *)

Lemma copyFile_filepost (s d : path) (f0 : fs) :
  hoare (atomic_event s d) f0 (copyFile s d)
    (λ _ f, filepost s d f0 f) (λ _ f, filepost s d f0 f).
Proof.
  eapply hoare_conseq; [apply copyFile_hoare|..].
  - intros _ f [Hsh (data & mode & Hs & Hd)]. split; [done|].
    right; right. by exists data, mode.
  - intros _ f [Hsh Hd]. split; [done|].
    destruct (f0 !! d) as [n|] eqn:Hn; [left; apply Hd; eauto|by right; left].
Qed.

Section copies.
Variable R : path → path → fs → fs → Prop.
Variable ok : path → path → Prop.
Hypothesis R_refl : ∀ s d f, R s d f f.
Hypothesis R_trans : ∀ s d f0 f1 f2, ok s d → R s d f0 f1 → R s d f1 f2 → R s d f0 f2.
Hypothesis R_mkdir : ∀ s d f0 f, mkrel d f0 f → R s d f0 f.
Hypothesis R_file : ∀ s d x f0 f, filepost (s ++ [x]) (d ++ [x]) f0 f → R s d f0 f.
Hypothesis R_sub : ∀ s d x f0 f, R (s ++ [x]) (d ++ [x]) f0 f → R s d f0 f.
Hypothesis ok_sub : ∀ s d x, ok s d → ok (s ++ [x]) (d ++ [x]).

Lemma copyFile_entry (s d : path) (x : string) (f0 : fs) :
  hoare (atomic_event s d) f0 (copyFile (s ++ [x]) (d ++ [x]))
    (λ _ f, R s d f0 f) (λ _ f, R s d f0 f).
Proof.
  eapply hoare_ev_mono; [apply atomic_event_sub|].
  eapply hoare_conseq; [apply copyFile_filepost|..]; intros ? f Hf; cbn beta in Hf; by eapply R_file.
Qed.

Lemma copyDir_gen (fuel : nat) : ∀ (s d : path) (f0 : fs),
  ok s d →
  hoare (atomic_event s d) f0 (copyDir fuel s d)
    (λ _ f, R s d f0 f) (λ _ f, R s d f0 f).
Proof.
  induction fuel as [|fuel IH]; intros s d f0 Hok; simpl.
  { apply hoare_fail, R_refl. }
  eapply hoare_bind.
  { apply (hoare_ReadDir _ _ _ (λ _ f, f = f0)); [done|]. intros e _. apply R_refl. }
  intros es f1 ->. eapply hoare_bind.
  { eapply hoare_conseq; [apply (mkdirDst_hoare s d d f0)|..];
      intros ? f Hf; cbn beta in Hf; by apply R_mkdir. }
  intros ? f1 Hf1. cbn beta in Hf1.
  assert (Hloop : ∀ (es : list (string * node)) (acc : M unit),
    hoare (atomic_event s d) f1 acc (λ _ f, R s d f0 f) (λ _ f, R s d f0 f) →
    hoare (atomic_event s d) f1
      (foldl (λ (acc : M unit) (entry : string * node),
         _ ← acc;
         if isDir entry.2 then copyDir fuel (s ++ [entry.1]) (d ++ [entry.1])
         else if isRegular entry.2 then copyFile (s ++ [entry.1]) (d ++ [entry.1])
         else mret ()) acc es)
      (λ _ f, R s d f0 f) (λ _ f, R s d f0 f)).
  { clear es. induction es as [|[nm n] es IHes]; intros acc Hacc; [done|]. simpl.
    apply IHes. eapply hoare_bind; [exact Hacc|].
    intros ? f2 Hf2. cbn beta in Hf2.
    assert (Hto : ∀ f, R s d f2 f → R s d f0 f) by (intros; by eapply R_trans).
    destruct (isDir n).
    - eapply hoare_ev_mono; [apply atomic_event_sub|].
      eapply hoare_conseq; [apply IH; by apply ok_sub|..];
        intros ? f Hf; cbn beta in Hf; apply Hto; by eapply R_sub.
    - destruct (isRegular n).
      + eapply hoare_conseq; [apply copyFile_entry|..]; intros ? f Hf; cbn beta in Hf; by apply Hto.
      + by apply hoare_ret. }
  apply Hloop. by apply hoare_ret.
Qed.

(** One entry of [Sync], the loop and [Sync] itself. *)
Lemma syncEntry_gen (fuel : nat) (src dst : path) (force : bool)
    (entry : string * node) (res : Result) (w : world) :
  ok src dst →
  steps (atomic_event src dst) w (syncEntry fuel src dst force entry res w).1 ∧
  R src dst (files w) (files (syncEntry fuel src dst force entry res w).1).
Proof.
  intros Hok. unfold syncEntry.
  destruct (hoare_run (atomic_event src dst) (files w) (Lstat (dst ++ [entry.1]))
              (λ _ f, f = files w) (λ _ f, f = files w) w) as [Hs1 Hp1];
    [by apply hoare_Lstat|done|].
  destruct (Lstat (dst ++ [entry.1]) w) as [w1 r1]. cbn [fst snd] in *.
  assert (Hw1 : files w1 = files w) by (by destruct r1).
  assert (Hfile : steps (atomic_event src dst) w
            (copyFile (src ++ [entry.1]) (dst ++ [entry.1]) w1).1 ∧
          R src dst (files w) (files (copyFile (src ++ [entry.1]) (dst ++ [entry.1]) w1).1)).
  { destruct (hoare_run _ _ _ _ _ w1 (copyFile_entry src dst entry.1 (files w1)) eq_refl)
      as [Hs2 Hp2].
    split; [by eapply steps_trans|]. rewrite <- Hw1.
    by destruct ((copyFile _ _ w1).2). }
  assert (Hdir : steps (atomic_event src dst) w
            (copyDir fuel (src ++ [entry.1]) (dst ++ [entry.1]) w1).1 ∧
          R src dst (files w) (files (copyDir fuel (src ++ [entry.1]) (dst ++ [entry.1]) w1).1)).
  { destruct (hoare_run _ _ _ _ _ w1
                (copyDir_gen fuel (src ++ [entry.1]) (dst ++ [entry.1]) (files w1)
                   (ok_sub _ _ _ Hok)) eq_refl) as [Hs2 Hp2].
    split.
    - eapply steps_trans; [done|]. eapply steps_mono; [apply atomic_event_sub|done].
    - rewrite <- Hw1. eapply R_sub. by destruct ((copyDir _ _ _ w1).2). }
  assert (Hskip : steps (atomic_event src dst) w w1 ∧ R src dst (files w) (files w1)).
  { split; [done|]. rewrite Hw1. apply R_refl. }
  destruct r1 as [e|n].
  - destruct (decide (e = ENOENT)); [|done].
    destruct (isRegular entry.2).
    + by destruct (copyFile _ _ w1) as [w2 [?|?]].
    + destruct (isDir entry.2); [|done].
      by destruct (copyDir _ _ _ w1) as [w2 [?|?]].
  - destruct (negb force); [done|].
    destruct (isRegular entry.2).
    + by destruct (copyFile _ _ w1) as [w2 [?|?]].
    + destruct (isDir entry.2); [|done].
      by destruct (copyDir _ _ _ w1) as [w2 [?|?]].
Qed.

Lemma syncLoop_gen (fuel : nat) (src dst : path) (force : bool)
    (es : list (string * node)) : ∀ (res : Result) (w : world),
  ok src dst →
  steps (atomic_event src dst) w (syncLoop fuel src dst force es res w).1 ∧
  R src dst (files w) (files (syncLoop fuel src dst force es res w).1).
Proof.
  induction es as [|entry es IH]; intros res w Hok; simpl.
  { split; [apply steps_refl|apply R_refl]. }
  destruct (syncEntry_gen fuel src dst force entry res w Hok) as [Hs1 Hr1].
  destruct (syncEntry fuel src dst force entry res w) as [w1 [res1 [e|]]]; [done|].
  destruct (IH res1 w1 Hok) as [Hs2 Hr2]. cbn [fst] in *.
  split; [by eapply steps_trans|by eapply R_trans].
Qed.

Lemma Sync_gen (fuel : nat) (src dst : path) (force : bool) (w : world) :
  ok src dst →
  steps (atomic_event src dst) w (Sync fuel src dst force w).1 ∧
  R src dst (files w) (files (Sync fuel src dst force w).1).
Proof.
  intros Hok. unfold Sync.
  destruct (hoare_run (atomic_event src dst) (files w) (ReadDir src)
              (λ _ f, f = files w) (λ _ f, f = files w) w) as [Hs1 Hp1];
    [by apply hoare_ReadDir|done|].
  destruct (ReadDir src w) as [w1 r1]. cbn [fst snd] in *.
  assert (Hw1 : files w1 = files w) by (by destruct r1).
  assert (Hskip : steps (atomic_event src dst) w w1 ∧ R src dst (files w) (files w1)).
  { split; [done|]. rewrite Hw1. apply R_refl. }
  destruct r1 as [e|es]; [by destruct (decide (e = ENOENT))|].
  destruct (hoare_run _ _ _ _ _ w1 (mkdirDst_hoare src dst dst (files w1)) eq_refl)
    as [Hs2 Hp2].
  assert (Hmk : steps (atomic_event src dst) w (mkdirDst dst w1).1 ∧
                R src dst (files w) (files (mkdirDst dst w1).1)).
  { split; [by eapply steps_trans|]. rewrite <- Hw1. apply R_mkdir.
    by destruct ((mkdirDst dst w1).2). }
  destruct (mkdirDst dst w1) as [w2 [e|[]]]; [done|]. cbn [fst snd] in *.
  destruct (syncLoop_gen fuel src dst force es (mkResult [] [] []) w2 Hok) as [Hs3 Hr3].
  destruct Hmk as [Hs12 Hr12].
  assert (steps (atomic_event src dst) w
            (syncLoop fuel src dst force es (mkResult [] [] []) w2).1 ∧
          R src dst (files w)
            (files (syncLoop fuel src dst force es (mkResult [] [] []) w2).1)).
  { split; [by eapply steps_trans|by eapply R_trans]. }
  by destruct (syncLoop fuel src dst force es _ w2) as [w3 [res3 [e|]]].
Qed.
End copies.

(** C9: every change [copyFile] and [Sync] make to the file tree, whatever
    calls fail and whatever names [os.CreateTemp] draws, is one of these: a
    directory is created where there was nothing; a temporary file
    ([.copy-*]) is created, written or removed; or a temporary file of the
    same directory that holds all the bytes and the mode of the source file is
    renamed, in one step, to the final path. So a path that does not bear a
    temporary name never shows a partly written file, and until the rename it
    holds what it held before. *)
Theorem C9_files_appear_by_atomic_rename :
  (∀ (src dst : path) (w : world),
     steps (atomic_event src dst) w (copyFile src dst w).1) ∧
  (∀ (fuel : nat) (src dst : path) (force : bool) (w : world),
     steps (atomic_event src dst) w (Sync fuel src dst force w).1).
Proof.
  split.
  - intros src dst w.
    by destruct (hoare_run _ _ _ _ _ w (copyFile_hoare src dst (files w)) eq_refl).
  - intros fuel src dst force w.
    by destruct (Sync_gen (λ _ _ _ _, True) (λ _ _, True)) with fuel src dst force w.
Qed.

(** ** Footprints *)

Lemma foot_refl (T D : path) (f : fs) : foot T D f f.
Proof. intros P. by left. Qed.

Lemma foot_trans (T D : path) (f0 f1 f2 : fs) :
  foot T D f0 f1 → foot T D f1 f2 → foot T D f0 f2.
Proof.
  intros H1 H2 P. destruct (H1 P) as [E1|[?|[? ?]]]; [|by right; left|by right; right].
  destruct (H2 P) as [E2|[?|[? ?]]]; [left; congruence|by right; left|].
  right; right. split; [congruence|done].
Qed.

Lemma foot_mono (T D T' D' : path) (f0 f : fs) :
  T' `prefix_of` T → D' `prefix_of` D → foot T D f0 f → foot T' D' f0 f.
Proof.
  intros HT HD H P. destruct (H P) as [?|[Hu|[Hn [Hu|Hp]]]]; [by left|..].
  - right; left. unfold under in *. by etrans.
  - right; right. split; [done|]. left. unfold under in *. by etrans.
  - right; right. split; [done|].
    destruct (prefix_weak_total P D' D Hp HD); [by right|by left].
Qed.

Lemma foot_mkrel (d : path) (f0 f : fs) : mkrel d f0 f → foot d d f0 f.
Proof.
  intros H P. destruct (H P) as [?|[? ?]]; [by left|]. right; right. eauto.
Qed.

Lemma prefix_snoc (d : path) (x : string) : d `prefix_of` d ++ [x].
Proof. by exists [x]. Qed.

Lemma parent_under (D P : path) : parent P = D → tempNamed P → under D P.
Proof.
  intros Hpar [c Hc]. destruct P as [|p0 P _] using rev_ind; [done|].
  rewrite parent_snoc in Hpar. subst. apply prefix_snoc.
Qed.

Lemma foot_filepost (s d : path) (x : string) (f0 f : fs) :
  filepost (s ++ [x]) (d ++ [x]) f0 f → foot (d ++ [x]) d f0 f.
Proof.
  intros [Hsh _] P. destruct (decide (P = d ++ [x])) as [->|HP].
  { right; left. done. }
  destruct (Hsh P HP) as [?|(Hn & Hpar & Htemp)]; [by left|].
  right; right. split; [done|]. left.
  rewrite parent_snoc in Hpar. by apply parent_under.
Qed.

(** ** What a copy may change *)

Lemma prefix_snoc_snoc (s d : path) (x y : string) :
  s ++ [x] `prefix_of` d ++ [y] → s `prefix_of` d.
Proof.
  intros Hp. pose proof (prefix_length _ _ Hp) as Hlen.
  rewrite !length_app in Hlen. simpl in Hlen.
  assert (Hs : s `prefix_of` d ++ [y]) by (etrans; [apply prefix_snoc|done]).
  destruct (prefix_weak_total s d (d ++ [y]) Hs (prefix_snoc d y)) as [?|Hd]; [done|].
  pose proof (prefix_length _ _ Hd).
  rewrite (prefix_length_eq d s) by (done || lia). done.
Qed.

Lemma apart_sub (s d : path) (x : string) : apart s d → apart (s ++ [x]) (d ++ [x]).
Proof.
  intros [H1 H2]. split; intros Hp%prefix_snoc_snoc; auto.
Qed.

Lemma apart_not_both (S D : path) (l1 l2 : list string) :
  apart S D → S ++ l1 ≠ D ++ l2.
Proof.
  intros [H1 H2] Heq.
  destruct (prefix_weak_total S D (S ++ l1)) as [?|?]; auto.
  - by exists l1.
  - rewrite Heq. by exists l2.
Qed.

(** While a tree is copied from [S] to a directory apart from it, nothing
    under [S] changes. *)
Lemma copyrel_source (S D : path) (f0 f : fs) (rel : list string) :
  apart S D → copyrel S D f0 f → f !! (S ++ rel) = f0 !! (S ++ rel).
Proof.
  intros Hap H. destruct (H (S ++ rel)) as [?|[[_ [Hu|Hp]]|(rel' & Heq & _)]]; [done|..].
  - destruct Hu as [k Hk]. by apply (apart_not_both S D rel k) in Hap.
  - destruct Hap as [Hap _]. destruct Hap. etrans; [|exact Hp]. by exists rel.
  - by apply (apart_not_both S D rel rel') in Hap.
Qed.

Lemma copyrel_refl (S D : path) (f : fs) : copyrel S D f f.
Proof. intros P. by left. Qed.

Lemma copyrel_trans (S D : path) (f0 f1 f2 : fs) :
  apart S D → copyrel S D f0 f1 → copyrel S D f1 f2 → copyrel S D f0 f2.
Proof.
  intros Hap H1 H2 P.
  destruct (H1 P) as [E1|[[? ?]|?]]; [|by right; left|by right; right].
  destruct (H2 P) as [E2|[[? ?]|(rel & -> & Hf)]]; [left; congruence|..].
  - right; left. split; [congruence|done].
  - right; right. exists rel. split; [done|].
    by rewrite <- (copyrel_source S D f0 f1 rel).
Qed.

Lemma copyrel_mkrel (S D : path) (f0 f : fs) : mkrel D f0 f → copyrel S D f0 f.
Proof.
  intros H P. destruct (H P) as [?|[? ?]]; [by left|]. right; left. eauto.
Qed.

Lemma copyrel_filepost (S D : path) (x : string) (f0 f : fs) :
  filepost (S ++ [x]) (D ++ [x]) f0 f → copyrel S D f0 f.
Proof.
  intros [Hsh Hd] P. destruct (decide (P = D ++ [x])) as [->|HP].
  - destruct Hd as [?|[?|?]]; [by left|right; left|right; right].
    + split; [done|]. left. apply prefix_snoc.
    + by exists [x].
  - destruct (Hsh P HP) as [?|(Hn & Hpar & Htemp)]; [by left|].
    right; left. split; [done|]. left.
    rewrite parent_snoc in Hpar. by apply parent_under.
Qed.

Lemma copyrel_sub (S D : path) (x : string) (f0 f : fs) :
  copyrel (S ++ [x]) (D ++ [x]) f0 f → copyrel S D f0 f.
Proof.
  intros H P. destruct (H P) as [?|[[Hn [Hu|Hp]]|(rel & -> & Hf)]]; [by left|..].
  - right; left. split; [done|]. left. unfold under in *.
    etrans; [apply prefix_snoc|done].
  - right; left. split; [done|].
    destruct (prefix_weak_total P D (D ++ [x]) Hp (prefix_snoc D x)); [by right|by left].
  - right; right. exists (x :: rel). by rewrite <- !(assoc_L (++)) in *.
Qed.


(** C10: [Sync] deletes nothing. When the source and the destination
    directory are apart, a file or directory below the destination that has
    no counterpart at the same relative path below the source is, after
    [Sync] returns (with a result or with an error, in force mode or not),
    still there and unchanged; in force mode the source files are copied over
    the existing subtree. *)
Theorem C10_sync_deletes_nothing (fuel : nat) (src dst : path) (force : bool)
    (w : world) (rel : list string) :
  apart src dst →
  is_Some (files w !! (dst ++ rel)) →
  files w !! (src ++ rel) = None →
  files (Sync fuel src dst force w).1 !! (dst ++ rel) = files w !! (dst ++ rel).
Proof.
  intros Hap [n Hn] Hsrc.
  destruct (Sync_gen copyrel apart copyrel_refl copyrel_trans
              (λ S D, copyrel_mkrel S D) copyrel_filepost copyrel_sub apart_sub
              fuel src dst force w Hap) as [_ Hrel].
  destruct (Hrel (dst ++ rel)) as [?|[[Hnone _]|(rel' & Heq & data & mode & Hf)]];
    [done|congruence|].
  apply app_inv_head in Heq as <-. congruence.
Qed.

(** ** The entries of a directory *)

Lemma childOf_Some (dir q : path) (n : node) (name : string) (n' : node) :
  childOf dir q n = Some (name, n') ↔ q = dir ++ [name] ∧ n' = n.
Proof.
  unfold childOf. split.
  - destruct (reverse q) as [|x rq] eqn:Hq; [done|].
    destruct (decide (reverse rq = dir)) as [<-|]; [|done].
    intros [= -> ->]. split; [|done].
    by rewrite <- (reverse_involutive q), Hq, reverse_cons.
  - intros [-> ->]. rewrite reverse_app. simpl.
    by rewrite decide_True by apply reverse_involutive.
Qed.

Lemma elem_of_entries (f : fs) (dir : path) (name : string) (n : node) :
  (name, n) ∈ entries f dir ↔ f !! (dir ++ [name]) = Some n.
Proof.
  unfold entries. rewrite merge_sort_Permutation, list_elem_of_omap. split.
  - intros ([q n'] & Hin & Hc). simpl in Hc. apply childOf_Some in Hc as [-> ->].
    by apply elem_of_map_to_list in Hin.
  - intros Hf. exists (dir ++ [name], n). split.
    + by apply elem_of_map_to_list.
    + by apply childOf_Some.
Qed.

Lemma NoDup_entries (f : fs) (dir : path) : NoDup (entries f dir).*1.
Proof.
  unfold entries. rewrite merge_sort_Permutation.
  pose proof (NoDup_fst_map_to_list f) as Hnd.
  induction (map_to_list f) as [|[q n] l IH]; simpl; [constructor|].
  apply NoDup_cons in Hnd as [Hq Hnd].
  destruct (childOf dir q n) as [[name n']|] eqn:Hc; [|by apply IH].
  simpl. apply NoDup_cons. split; [|by apply IH].
  apply childOf_Some in Hc as [-> ->].
  intros [[name' n''] [Heq ([q' n3] & Hin & Hc')%list_elem_of_omap]]%list_elem_of_fmap.
  simpl in Heq, Hc'. subst name'. apply childOf_Some in Hc' as [-> ->].
  apply Hq. apply list_elem_of_fmap. by exists (dir ++ [name], n3).
Qed.

(** ** One name through the loop of [Sync] *)

Lemma syncEntry_facts (fuel : nat) (src dst : path) (force : bool)
    (entry : string * node) (res : Result) (w : world) :
  let out := syncEntry fuel src dst force entry res w in
  foot (dst ++ [entry.1]) dst (files w) (files out.1) ∧
  (out.2.1 = res ∨
   out.2.1 = mkResult (Copied res ++ [entry.1]) (Skipped res) (Forced res) ∨
   out.2.1 = mkResult (Copied res) (Skipped res ++ [entry.1]) (Forced res) ∨
   out.2.1 = mkResult (Copied res) (Skipped res) (Forced res ++ [entry.1])).
Proof.
  unfold syncEntry.
  destruct (hoare_run (atomic_event src dst) (files w) (Lstat (dst ++ [entry.1]))
              (λ _ f, f = files w) (λ _ f, f = files w) w) as [_ Hp1];
    [by apply hoare_Lstat|done|].
  destruct (Lstat (dst ++ [entry.1]) w) as [w1 r1]. cbn [fst snd] in *.
  assert (Hw1 : files w1 = files w) by (by destruct r1).
  assert (Hfile : foot (dst ++ [entry.1]) dst (files w)
            (files (copyFile (src ++ [entry.1]) (dst ++ [entry.1]) w1).1)).
  { destruct (hoare_run _ _ _ _ _ w1
        (copyFile_filepost (src ++ [entry.1]) (dst ++ [entry.1]) (files w1)) eq_refl)
      as [_ Hp2].
    rewrite <- Hw1. apply (foot_filepost src).
    by destruct ((copyFile _ _ w1).2). }
  assert (Hdir : foot (dst ++ [entry.1]) dst (files w)
            (files (copyDir fuel (src ++ [entry.1]) (dst ++ [entry.1]) w1).1)).
  { destruct (hoare_run _ _ _ _ _ w1
        (copyDir_gen (λ _ d, foot d d) (λ _ _, True)
           (λ _ d, foot_refl d d) (λ _ d f0 f1 f2 _, foot_trans d d f0 f1 f2)
           (λ _ d, foot_mkrel d)
           (λ s d x f0 f H, foot_mono _ _ _ _ f0 f (prefix_snoc d x) (reflexivity d)
                              (foot_filepost s d x f0 f H))
           (λ _ d x f0 f, foot_mono _ _ _ _ f0 f (prefix_snoc d x) (prefix_snoc d x))
           (λ _ _ _ _, I)
           fuel (src ++ [entry.1]) (dst ++ [entry.1]) (files w1) I) eq_refl)
      as [_ Hp2].
    rewrite <- Hw1.
    apply (foot_mono (dst ++ [entry.1]) (dst ++ [entry.1])); [done|apply prefix_snoc|].
    by destruct ((copyDir _ _ _ w1).2). }
  assert (Hskip : foot (dst ++ [entry.1]) dst (files w) (files w1)).
  { rewrite Hw1. apply foot_refl. }
  destruct r1 as [e|n].
  - destruct (decide (e = ENOENT)); [|by auto].
    destruct (isRegular entry.2).
    + destruct (copyFile _ _ w1) as [w2 [?|?]]; simpl in *; auto.
    + destruct (isDir entry.2); [|by auto].
      destruct (copyDir _ _ _ w1) as [w2 [?|?]]; simpl in *; auto.
  - destruct (negb force); [by auto 6|].
    destruct (isRegular entry.2).
    + destruct (copyFile _ _ w1) as [w2 [?|?]]; simpl in *; auto 6.
    + destruct (isDir entry.2); [|by auto].
      destruct (copyDir _ _ _ w1) as [w2 [?|?]]; simpl in *; auto 6.
Qed.

Lemma foot_keeps (T D : path) (f0 f : fs) (P : path) :
  foot T D f0 f → is_Some (f0 !! P) → ¬ under T P → f !! P = f0 !! P.
Proof.
  intros H [n Hn] Hu. destruct (H P) as [?|[?|[? _]]]; [done|done|congruence].
Qed.

Lemma mkrel_keeps (D : path) (f0 f : fs) (P : path) :
  mkrel D f0 f → is_Some (f0 !! P) → f !! P = f0 !! P.
Proof. intros H [n Hn]. destruct (H P) as [?|[? _]]; [done|congruence]. Qed.

Lemma syncLoop_app (fuel : nat) (src dst : path) (force : bool)
    (es1 es2 : list (string * node)) : ∀ (res : Result) (w : world),
  syncLoop fuel src dst force (es1 ++ es2) res w =
  match syncLoop fuel src dst force es1 res w with
  | (w', (res', None)) => syncLoop fuel src dst force es2 res' w'
  | r => r
  end.
Proof.
  induction es1 as [|e es1 IH]; intros res w; simpl; [done|].
  destruct (syncEntry fuel src dst force e res w) as [w1 [res1 [err|]]]; [done|].
  apply IH.
Qed.

(** Entries of other names leave a path outside their targets, and the
    place of the name in the lists, as they were. *)
Lemma syncLoop_others (fuel : nat) (src dst : path) (force : bool)
    (P : path) (name : string) (es : list (string * node)) :
  ∀ (res : Result) (w : world),
  (∀ e, e ∈ es → e.1 ≠ name ∧ ¬ under (dst ++ [e.1]) P) →
  is_Some (files w !! P) →
  let out := syncLoop fuel src dst force es res w in
  files out.1 !! P = files w !! P ∧
  (name ∈ Copied out.2.1 ↔ name ∈ Copied res) ∧
  (name ∈ Skipped out.2.1 ↔ name ∈ Skipped res) ∧
  (name ∈ Forced out.2.1 ↔ name ∈ Forced res).
Proof.
  induction es as [|e es IH]; intros res w Hes HP; simpl; [done|].
  destruct (Hes e (list_elem_of_here _ _)) as [Hne Hu].
  destruct (syncEntry_facts fuel src dst force e res w) as [Hfoot Hres].
  pose proof (foot_keeps _ _ _ _ P Hfoot HP Hu) as Hkeep.
  assert (Hmem : (name ∈ Copied (syncEntry fuel src dst force e res w).2.1 ↔ name ∈ Copied res) ∧
                 (name ∈ Skipped (syncEntry fuel src dst force e res w).2.1 ↔ name ∈ Skipped res) ∧
                 (name ∈ Forced (syncEntry fuel src dst force e res w).2.1 ↔ name ∈ Forced res)).
  { destruct Hres as [-> | [-> | [-> | ->]]]; simpl; rewrite ?elem_of_app, ?list_elem_of_singleton;
      naive_solver. }
  destruct (syncEntry fuel src dst force e res w) as [w1 [res1 [err|]]];
    cbn [fst snd] in *; [done|].
  destruct (IH res1 w1) as (Hk & Hc & Hs & Hf).
  { intros e' He'. apply Hes. by apply list_elem_of_further. }
  { by rewrite Hkeep. }
  cbn zeta in *. rewrite Hk, Hc, Hs, Hf. by rewrite Hkeep.
Qed.

(** The entry of the name, when it exists at the destination. *)
Lemma syncEntry_skip (fuel : nat) (src dst : path) (name : string) (nd n : node)
    (res res' : Result) (w w' : world) :
  files w !! (dst ++ [name]) = Some n →
  syncEntry fuel src dst false (name, nd) res w = (w', (res', None)) →
  files w' = files w ∧
  res' = mkResult (Copied res) (Skipped res ++ [name]) (Forced res).
Proof.
  intros Hd. unfold syncEntry. cbn [fst snd negb].
  destruct (hoare_run (atomic_event src dst) (files w) (Lstat (dst ++ [name]))
              (λ _ f, f = files w) (λ e f, f = files w ∧ e ≠ ENOENT) w) as [_ Hp1];
    [|done|].
  { apply hoare_Lstat; [done|]. intros e He. split; [done|]. intros ->.
    rewrite He in Hd; done. }
  destruct (Lstat (dst ++ [name]) w) as [w1 [e|n1]]; cbn [fst snd] in *.
  - destruct Hp1 as [_ Hne]. by rewrite decide_False.
  - by intros [= <- <-].
Qed.

Lemma syncEntry_force (fuel : nat) (src dst : path) (name : string) (nd n : node)
    (c : string) (m : N) (res res' : Result) (w w' : world) :
  files w !! (dst ++ [name]) = Some n →
  files w !! (src ++ [name]) = Some (File c m) →
  isRegular nd = true →
  syncEntry fuel src dst true (name, nd) res w = (w', (res', None)) →
  files w' !! (dst ++ [name]) = Some (File c m) ∧
  res' = mkResult (Copied res) (Skipped res) (Forced res ++ [name]).
Proof.
  intros Hd Hs Hreg. unfold syncEntry. cbn [fst snd negb]. rewrite Hreg.
  destruct (hoare_run (atomic_event src dst) (files w) (Lstat (dst ++ [name]))
              (λ _ f, f = files w) (λ e f, f = files w ∧ e ≠ ENOENT) w) as [_ Hp1];
    [|done|].
  { apply hoare_Lstat; [done|]. intros e He. split; [done|]. intros ->.
    rewrite He in Hd; done. }
  destruct (Lstat (dst ++ [name]) w) as [w1 [e|n1]]; cbn [fst snd] in *.
  { destruct Hp1 as [_ Hne]. by rewrite decide_False. }
  destruct (hoare_run _ _ _ _ _ w1
      (copyFile_hoare (src ++ [name]) (dst ++ [name]) (files w1)) eq_refl)
    as [_ Hp2].
  destruct (copyFile (src ++ [name]) (dst ++ [name]) w1) as [w2 [e|[]]];
    cbn [fst snd] in *; [done|].
  intros [= <- <-]. split; [|done].
  destruct Hp2 as [_ (data & mode & Hsrc & Hdst)].
  rewrite Hp1, Hs in Hsrc. by simplify_eq.
Qed.

Lemma not_under_sibling (dst : path) (x name : string) :
  x ≠ name → ¬ under (dst ++ [x]) (dst ++ [name]).
Proof.
  intros Hne Hu. apply prefix_app_inv in Hu. apply prefix_cons_inv_1 in Hu. done.
Qed.

(** ** Calls that do not stop for lack of fuel *)

Lemma noFuel_ret {A : Type} (x : A) : noFuel (mret x : M A).
Proof. by intros w. Qed.

Lemma noFuel_fail {A : Type} (e : error) : e ≠ EFUEL → noFuel (fail e : M A).
Proof. intros He w H. simpl in H. congruence. Qed.

Lemma noFuel_bind {A B : Type} (m : M A) (k : A → M B) :
  noFuel m → (∀ x, noFuel (k x)) → noFuel (m ≫= k).
Proof.
  intros Hm Hk w. rewrite bind_unfold. specialize (Hm w).
  destruct (m w) as [w' [e|x]]; simpl in *; [|apply Hk].
  intros [= ->]. by apply Hm.
Qed.

Lemma noFuel_onError {A : Type} (m : M A) (cleanup : M unit) :
  noFuel m → noFuel (onError m cleanup).
Proof.
  intros Hm w. unfold onError. specialize (Hm w).
  by destruct (m w) as [w' [e|x]].
Qed.

Lemma noFuel_getFiles : noFuel getFiles.
Proof. by intros w. Qed.

Lemma noFuel_fault : noFuel fault.
Proof. intros w. unfold fault. by destruct (faults w). Qed.

Lemma noFuel_update (o : op) (p : path) (f' : fs) : noFuel (update o p f').
Proof. by intros w. Qed.

Lemma noFuel_drawTemp (dir : path) (pattern : string) : noFuel (drawTemp dir pattern).
Proof. intros w. unfold drawTemp. by destruct (pickTemp _ _ _ _) as [[t cs]|]. Qed.

Create HintDb nofuel.
#[local] Hint Resolve noFuel_getFiles noFuel_fault noFuel_update noFuel_drawTemp : nofuel.

Ltac no_fuel :=
  repeat first
    [ apply noFuel_ret
    | apply noFuel_fail; discriminate
    | solve [auto with nofuel]
    | apply noFuel_onError
    | apply noFuel_bind; [|intros ?]
    | match goal with
      | |- noFuel (match ?x with _ => _ end) => destruct x
      end ].

Lemma noFuel_mayFail : noFuel mayFail.
Proof. unfold mayFail. no_fuel. Qed.
#[local] Hint Resolve noFuel_mayFail : nofuel.

Lemma noFuel_ReadDir (dir : path) : noFuel (ReadDir dir).
Proof.
  unfold ReadDir. apply noFuel_bind; [auto with nofuel|]. intros f.
  destruct (f !! dir) as [[| |]|]; no_fuel.
  apply noFuel_fail. by destruct (resolveError_cases f dir []) as [-> | ->].
Qed.

Lemma noFuel_Lstat (p : path) : noFuel (Lstat p).
Proof. unfold Lstat. no_fuel. Qed.

Lemma noFuel_mkdirFrom (rest : list string) : ∀ (base : path) (perm : N)
    (budget : option nat), noFuel (mkdirFrom base rest perm budget).
Proof.
  induction rest as [|c rest IH]; intros base perm budget; simpl; [no_fuel|].
  apply noFuel_bind; [auto with nofuel|]. intros f.
  destruct (f !! (base ++ [c])) as [[| |]|]; [no_fuel|apply IH|no_fuel|].
  destruct budget as [[|n]|]; [no_fuel|..];
    (apply noFuel_bind; [auto with nofuel|intros ?; apply IH]).
Qed.

Lemma noFuel_mkdirDst (dst : path) : noFuel (mkdirDst dst).
Proof.
  intros w. unfold mkdirDst.
  assert (H : noFuel (MkdirAll dst 488)).
  { unfold MkdirAll. apply noFuel_bind; [auto with nofuel|].
    intros b. apply noFuel_mkdirFrom. }
  specialize (H w). by destruct (MkdirAll dst 488 w) as [w' [[]|[]]].
Qed.

Lemma noFuel_copyFile (src dst : path) : noFuel (copyFile src dst).
Proof.
  unfold copyFile, Open, Stat, CreateTemp, Chmod, Copy, Close, Rename, Remove.
  no_fuel.
Qed.
#[local] Hint Resolve noFuel_ReadDir noFuel_Lstat noFuel_mkdirDst noFuel_copyFile
  : nofuel.

(** ** [copyFile], outcome by outcome *)

Lemma copyFile_exact (src dst : path) (f0 : fs) :
  hoare (λ _, True) f0 (copyFile src dst)
    (λ _ f, ∃ data mode, f0 !! src = Some (File data mode) ∧
                         f = <[dst := File data mode]> f0)
    (λ _ f, ∀ P, f !! P = f0 !! P ∨
                 (f0 !! P = None ∧ parent P = parent dst ∧ tempNamed P)).
Proof.
  assert (Hrefl : ∀ P, f0 !! P = f0 !! P ∨
                 (f0 !! P = None ∧ parent P = parent dst ∧ tempNamed P))
    by (by left).
  unfold copyFile. eapply hoare_bind.
  { apply (hoare_Open _ _ _ (λ h f, f = f0 ∧ f0 !! src = Some (File h.1 h.2))); auto. }
  intros [data mode] f1 [-> Hsrc]. simpl in Hsrc. eapply hoare_bind.
  { apply (hoare_Stat _ _ _ (λ m f, f = f0 ∧ m = mode)); auto. }
  intros m f1 [-> ->]. eapply hoare_bind.
  { apply (hoare_CreateTemp _ _ _ _
      (λ t f, ∃ c, t = parent dst ++ [".copy-" +:+ c] ∧ f0 !! t = None ∧
                   f = <[t := File "" 384]> f0)); [|auto].
    intros c t Hnone. split; [done|by eauto]. }
  intros t f1 (c & Ht & Hnone & ->).
  assert (Htemp : tempNamed t) by (subst t; apply tempNamed_snoc).
  assert (Hpar : parent t = parent dst) by (subst t; apply parent_snoc).
  clear Ht. cbn [fst].
  pose (J := λ f : fs, ∀ P, P ≠ t → f !! P = f0 !! P).
  assert (HJE : ∀ f, J f →
    ∀ P, f !! P = f0 !! P ∨ (f0 !! P = None ∧ parent P = parent dst ∧ tempNamed P)).
  { intros f HJ P. destruct (decide (P = t)) as [->|HPt]; [by right|].
    left. by apply HJ. }
  assert (HJins : ∀ f n, J f → J (<[t := n]> f)).
  { intros f n HJ P HP. rewrite lookup_insert_ne by done. by apply HJ. }
  assert (HJdel : ∀ f, J f → J (delete t f)).
  { intros f HJ P HP. rewrite lookup_delete_ne by done. by apply HJ. }
  assert (HJ1 : J (<[t := File "" 384]> f0)) by (by apply HJins).
  eapply (hoare_onError _ _ _ _ _ _ (λ _ f, J f)).
  - eapply hoare_bind.
    { eapply (hoare_onError _ _ _ _
        (λ _ f, J f ∧ ∃ d, f !! t = Some (File d mode)) _ (λ _ f, J f)).
      - apply hoare_Chmod; [|done]. intros d m0 Hd. split; [done|].
        split; [by apply HJins|]. exists d. by rewrite lookup_insert_eq.
      - intros e f1 HJf. by apply hoare_Close. }
    intros _ f2 [HJ2 [d Hd]]. eapply hoare_bind.
    { eapply (hoare_onError _ _ _ _
        (λ _ f, J f ∧ f !! t = Some (File data mode)) _ (λ _ f, J f)).
      - apply hoare_Copy; [|done]. intros d' m' Hd'.
        assert (m' = mode) as -> by congruence.
        split; [split; [done|]|].
        + split; [by apply HJins|]. by rewrite lookup_insert_eq.
        + intros n. split; [done|by apply HJins].
      - intros e f1 HJf. by apply hoare_Close. }
    intros _ f3 [HJ3 Ht3]. eapply hoare_bind.
    { apply (hoare_Close _ _ (λ _ f, f = f3)); done. }
    intros _ f1 ->. apply hoare_Rename; [|done].
    intros n Hn Hnd. assert (n = File data mode) as -> by congruence.
    split; [done|]. exists data, mode. split; [done|]. f_equal.
    apply map_eq. intros P. destruct (decide (P = t)) as [->|HPt].
    + by rewrite lookup_delete_eq.
    + rewrite lookup_delete_ne by done. by apply HJ3.
  - intros e f1 HJf. apply hoare_Remove; [done|..].
    + apply HJE. by apply HJdel.
    + by apply HJE.
Qed.

(** A run of [copyFile] that returns nil has put the bytes and the mode of
    the source file at the destination and changed nothing else. *)
Lemma copyFile_ok (src dst : path) (w w' : world) (u : unit) :
  copyFile src dst w = (w', inr u) →
  ∃ data mode, files w !! src = Some (File data mode) ∧
               files w' = <[dst := File data mode]> (files w).
Proof.
  intros Hrun.
  destruct (hoare_run _ _ _ _ _ w (copyFile_exact src dst (files w)) eq_refl)
    as [_ Hpost].
  by rewrite Hrun in Hpost.
Qed.

(** ** What the calls of [Sync] return *)

Lemma Lstat_spec (p : path) (w : world) :
  files (Lstat p w).1 = files w ∧
  match (Lstat p w).2 with
  | inr n => files w !! p = Some n
  | inl e => e = ENOENT → files w !! p = None
  end.
Proof.
  destruct (hoare_run (λ _, True) (files w) (Lstat p)
              (λ n f, f = files w ∧ files w !! p = Some n)
              (λ e f, f = files w ∧ (e = ENOENT → files w !! p = None)) w)
    as [_ Hpost]; [by apply hoare_Lstat|done|].
  by destruct ((Lstat p w).2) as [e|n]; destruct Hpost.
Qed.

Lemma ReadDir_Dir (src : path) (ms : N) (w : world) :
  files w !! src = Some (Dir ms) →
  files (ReadDir src w).1 = files w ∧
  ((ReadDir src w).2 = inr (entries (files w) src) ∨
   ∃ e, (ReadDir src w).2 = inl e ∧ e ≠ ENOENT).
Proof.
  intros Hsrc.
  destruct (hoare_run (λ _, True) (files w) (ReadDir src)
              (λ es f, f = files w ∧ es = entries (files w) src)
              (λ e f, f = files w ∧ e ≠ ENOENT) w) as [_ Hp1]; [|done|].
  { apply hoare_ReadDir; [done|]. intros e He. split; [done|]. intros ->.
    by apply (He eq_refl ms). }
  destruct (ReadDir src w) as [w1 [e|es]]; cbn [fst snd] in *.
  - destruct Hp1 as [-> ?]. split; [done|]. right. by exists e.
  - destruct Hp1 as [-> ->]. split; [done|]. by left.
Qed.

Lemma ReadDir_files (src : path) (w : world) :
  files (ReadDir src w).1 = files w ∧
  ∀ es, (ReadDir src w).2 = inr es →
        es = entries (files w) src ∧ ∃ m, files w !! src = Some (Dir m).
Proof.
  destruct (hoare_run (λ _, True) (files w) (ReadDir src)
              (λ es f, f = files w ∧ es = entries (files w) src ∧
                       ∃ m, files w !! src = Some (Dir m))
              (λ e f, f = files w) w) as [_ Hp1]; [|done|].
  { apply hoare_ReadDir; [|done]. intros m Hm. eauto. }
  destruct (ReadDir src w) as [w1 [e|es]]; cbn [fst snd] in *.
  - split; [done|]. by intros es [=].
  - destruct Hp1 as (-> & -> & Hm). split; [done|]. by intros es' [= <-].
Qed.

Lemma mkdirDst_mkrel (dst : path) (w : world) :
  mkrel dst (files w) (files (mkdirDst dst w).1).
Proof.
  destruct (hoare_run _ _ _ _ _ w (mkdirDst_hoare [] [] dst (files w)) eq_refl)
    as [_ Hp].
  by destruct ((mkdirDst dst w).2).
Qed.

(** The shape of a run of [Sync] that returns a result. *)
Lemma Sync_ok_inv (fuel : nat) (src dst : path) (force : bool) (w w' : world)
    (res : Result) (ms : N) :
  files w !! src = Some (Dir ms) →
  Sync fuel src dst force w = (w', (res, None)) →
  ∃ w2 res3,
    mkrel dst (files w) (files w2) ∧
    syncLoop fuel src dst force (entries (files w) src) (mkResult [] [] []) w2
      = (w', (res3, None)) ∧
    res = mkResult (Merge.sortStrings (Copied res3)) (Merge.sortStrings (Skipped res3))
                   (Merge.sortStrings (Forced res3)).
Proof.
  intros Hsrc. unfold Sync.
  destruct (ReadDir_Dir src ms w Hsrc) as [Hw1 Hr].
  destruct (ReadDir src w) as [w1 r1]. cbn [fst snd] in *.
  destruct Hr as [->|(e & -> & Hne)]; [|by rewrite decide_False].
  pose proof (mkdirDst_mkrel dst w1) as Hmk. rewrite Hw1 in Hmk.
  destruct (mkdirDst dst w1) as [w2 [e|[]]]; cbn [fst snd] in *; [done|].
  destruct (syncLoop fuel src dst force (entries (files w) src) (mkResult [] [] []) w2)
    as [w3 [res3 [err|]]] eqn:Hloop; [done|].
  intros [= <- <-]. by exists w2, res3.
Qed.

(** ** A turn of the loop that succeeds *)

Lemma copyDir_foot (fuel : nat) (s d : path) (f0 : fs) :
  hoare (atomic_event s d) f0 (copyDir fuel s d)
    (λ _ f, foot d d f0 f) (λ _ f, foot d d f0 f).
Proof.
  apply (copyDir_gen (λ _ d, foot d d) (λ _ _, True)
           (λ _ d, foot_refl d d) (λ _ d f0 f1 f2 _, foot_trans d d f0 f1 f2)
           (λ _ d, foot_mkrel d)
           (λ s d x f0 f H, foot_mono _ _ _ _ f0 f (prefix_snoc d x) (reflexivity d)
                              (foot_filepost s d x f0 f H))
           (λ _ d x f0 f, foot_mono _ _ _ _ f0 f (prefix_snoc d x) (prefix_snoc d x))
           (λ _ _ _ _, I)
           fuel s d f0 I).
Qed.

Lemma foot_outside (T : path) (f0 f : fs) (P : path) :
  foot T T f0 f → ¬ under T P → ¬ P `prefix_of` T → f !! P = f0 !! P.
Proof. intros H Hu Hp. by destruct (H P) as [?|[?|[_ [?|?]]]]. Qed.

Lemma foot_insert (T : path) (f : fs) (n : node) : foot T T f (<[T := n]> f).
Proof.
  intros P. destruct (decide (P = T)) as [->|HP].
  - right; left. done.
  - left. by rewrite lookup_insert_ne.
Qed.

Lemma syncEntry_ok_foot (fuel : nat) (src dst : path) (force : bool)
    (entry : string * node) (res res' : Result) (w w' : world) :
  syncEntry fuel src dst force entry res w = (w', (res', None)) →
  foot (dst ++ [entry.1]) (dst ++ [entry.1]) (files w) (files w').
Proof.
  unfold syncEntry.
  destruct (Lstat_spec (dst ++ [entry.1]) w) as [Hw1 _].
  destruct (Lstat (dst ++ [entry.1]) w) as [w1 r1]. cbn [fst snd] in *.
  assert (Hfile : ∀ w2 u,
    copyFile (src ++ [entry.1]) (dst ++ [entry.1]) w1 = (w2, inr u) →
    foot (dst ++ [entry.1]) (dst ++ [entry.1]) (files w) (files w2)).
  { intros w2 u Hrun. apply copyFile_ok in Hrun as (data & mode & _ & ->).
    rewrite Hw1. apply foot_insert. }
  assert (Hdir : foot (dst ++ [entry.1]) (dst ++ [entry.1]) (files w)
            (files (copyDir fuel (src ++ [entry.1]) (dst ++ [entry.1]) w1).1)).
  { destruct (hoare_run _ _ _ _ _ w1
        (copyDir_foot fuel (src ++ [entry.1]) (dst ++ [entry.1]) (files w1)) eq_refl)
      as [_ Hp2].
    rewrite <- Hw1. by destruct ((copyDir _ _ _ w1).2). }
  assert (Hskip : foot (dst ++ [entry.1]) (dst ++ [entry.1]) (files w) (files w1)).
  { rewrite Hw1. apply foot_refl. }
  destruct r1 as [e|n].
  - destruct (decide (e = ENOENT)); [|done].
    destruct (isRegular entry.2).
    + destruct (copyFile _ _ w1) as [w2 [?|u]] eqn:Hc; [done|].
      intros [= <- _]. by eapply Hfile.
    + destruct (isDir entry.2); [|by intros [= <- _]].
      destruct (copyDir _ _ _ w1) as [w2 [?|?]]; [done|]. by intros [= <- _].
  - destruct (negb force); [by intros [= <- _]|].
    destruct (isRegular entry.2).
    + destruct (copyFile _ _ w1) as [w2 [?|u]] eqn:Hc; [done|].
      intros [= <- _]. by eapply Hfile.
    + destruct (isDir entry.2); [|by intros [= <- _]].
      destruct (copyDir _ _ _ w1) as [w2 [?|?]]; [done|]. by intros [= <- _].
Qed.

(** Entries of other names, in a loop that succeeds, leave a path outside
    their targets, and the place of the name in the lists, as they were. *)
Lemma syncLoop_ok_others (fuel : nat) (src dst : path) (force : bool)
    (P : path) (name : string) (es : list (string * node)) :
  ∀ (res res' : Result) (w w' : world),
  (∀ e, e ∈ es → e.1 ≠ name ∧ ¬ under (dst ++ [e.1]) P ∧
                 ¬ P `prefix_of` dst ++ [e.1]) →
  syncLoop fuel src dst force es res w = (w', (res', None)) →
  files w' !! P = files w !! P ∧
  (name ∈ Copied res' ↔ name ∈ Copied res) ∧
  (name ∈ Skipped res' ↔ name ∈ Skipped res) ∧
  (name ∈ Forced res' ↔ name ∈ Forced res).
Proof.
  induction es as [|e es IH]; intros res res' w w' Hes; simpl.
  { by intros [= <- <-]. }
  destruct (Hes e (list_elem_of_here _ _)) as (Hne & Hu & Hp).
  destruct (syncEntry_facts fuel src dst force e res w) as [_ Hres].
  destruct (syncEntry fuel src dst force e res w) as [w1 [res1 [err|]]] eqn:Hent;
    cbn [fst snd] in *; [done|].
  pose proof (foot_outside _ _ _ P (syncEntry_ok_foot _ _ _ _ _ _ _ _ _ Hent) Hu Hp)
    as Hkeep.
  assert (Hmem : (name ∈ Copied res1 ↔ name ∈ Copied res) ∧
                 (name ∈ Skipped res1 ↔ name ∈ Skipped res) ∧
                 (name ∈ Forced res1 ↔ name ∈ Forced res)).
  { clear -Hres Hne.
    destruct Hres as [-> | [-> | [-> | ->]]]; simpl;
      rewrite ?elem_of_app, ?list_elem_of_singleton; naive_solver. }
  intros Hrest.
  destruct (IH res1 res' w1 w') as (Hk & Hc & Hs & Hf); [|done|].
  { intros e' He'. apply Hes. by apply list_elem_of_further. }
  destruct Hmem as (Hc1 & Hs1 & Hf1).
  rewrite Hk, Hc, Hs, Hf. by rewrite Hkeep.
Qed.

Lemma under_same_child (dst P : path) (x name : string) :
  under (dst ++ [x]) P → under (dst ++ [name]) P → x = name.
Proof.
  intros H1 H2.
  destruct (prefix_weak_total _ _ _ H1 H2) as [H|H];
    apply prefix_app_inv, prefix_cons_inv_1 in H; done.
Qed.

(** A path at or below the entry [name] of [dst] is outside the targets of
    the entries of other names. *)
Lemma below_outside (dst P : path) (x name : string) :
  under (dst ++ [name]) P → x ≠ name →
  ¬ under (dst ++ [x]) P ∧ ¬ P `prefix_of` dst ++ [x].
Proof.
  intros Hu Hne. split.
  - intros Hu'. apply Hne. by apply (under_same_child dst P).
  - intros Hp. apply (not_under_sibling dst name x); [done|].
    unfold under in *. by etrans.
Qed.

(** A path at or below a source apart from [dst] is outside every target. *)
Lemma source_outside (src dst : path) (rel : list string) (x : string) :
  apart src dst →
  ¬ under (dst ++ [x]) (src ++ rel) ∧ ¬ src ++ rel `prefix_of` dst ++ [x].
Proof.
  intros [H1 H2]. split.
  - intros Hu.
    assert (Hd : dst `prefix_of` src ++ rel).
    { unfold under in Hu. etrans; [apply prefix_snoc|done]. }
    destruct (prefix_weak_total dst src (src ++ rel) Hd) as [?|?]; auto.
    by exists rel.
  - intros Hp.
    assert (Hs : src `prefix_of` dst ++ [x]).
    { etrans; [|done]. by exists rel. }
    destruct (prefix_weak_total src dst (dst ++ [x]) Hs (prefix_snoc dst x)); auto.
Qed.

Lemma NoDup_split_name (es1 es2 : list (string * node)) (name : string) (nd : node) :
  NoDup (es1 ++ (name, nd) :: es2).*1 →
  (∀ e : string * node, e ∈ es1 → e.1 ≠ name) ∧
  (∀ e : string * node, e ∈ es2 → e.1 ≠ name).
Proof.
  intros Hnd.
  rewrite fmap_app, fmap_cons in Hnd. apply NoDup_app in Hnd as (_ & Hn1 & Hn2).
  apply NoDup_cons in Hn2 as [Hn2 _]. simpl in Hn1, Hn2. split.
  - intros e He Heq. apply (Hn1 e.1); [by apply list_elem_of_fmap_2|].
    rewrite Heq. apply list_elem_of_here.
  - intros e He Heq. apply Hn2. rewrite <- Heq. by apply list_elem_of_fmap_2.
Qed.

(** A loop that succeeds, cut at the turn of one name. *)
Lemma syncLoop_split (fuel : nat) (src dst : path) (force : bool) (name : string)
    (ns : node) (es : list (string * node)) (res res' : Result) (w w' : world) :
  NoDup es.*1 → (name, ns) ∈ es →
  syncLoop fuel src dst force es res w = (w', (res', None)) →
  ∃ es1 es2 w1 res1 w2 res2,
    (∀ e : string * node, e ∈ es1 → e.1 ≠ name) ∧
    (∀ e : string * node, e ∈ es2 → e.1 ≠ name) ∧
    syncLoop fuel src dst force es1 res w = (w1, (res1, None)) ∧
    syncEntry fuel src dst force (name, ns) res1 w1 = (w2, (res2, None)) ∧
    syncLoop fuel src dst force es2 res2 w2 = (w', (res', None)).
Proof.
  intros Hnd Hin.
  apply list_elem_of_split in Hin as (es1 & es2 & ->).
  apply NoDup_split_name in Hnd as [Hes1 Hes2].
  rewrite syncLoop_app.
  destruct (syncLoop fuel src dst force es1 res w) as [w1 [res1 [err|]]] eqn:H1;
    [done|].
  simpl.
  destruct (syncEntry fuel src dst force (name, ns) res1 w1)
    as [w2 [res2 [err|]]] eqn:Hent; [done|].
  intros Hrest. by exists es1, es2, w1, res1, w2, res2.
Qed.

(** ** One entry, by what it is and what the destination has *)

Lemma syncEntry_special (fuel : nat) (src dst : path) (force : bool) (name : string)
    (nd : node) (res res' : Result) (w w' : world) :
  isRegular nd = false → isDir nd = false →
  syncEntry fuel src dst force (name, nd) res w = (w', (res', None)) →
  files w' = files w ∧ Copied res' = Copied res ∧ Forced res' = Forced res ∧
  (Skipped res' = Skipped res ++ [name] ∧ force = false ∧
     is_Some (files w !! (dst ++ [name])) ∨
   Skipped res' = Skipped res ∧
     ¬ (force = false ∧ is_Some (files w !! (dst ++ [name])))).
Proof.
  intros Hreg Hdir. unfold syncEntry. cbn [fst snd]. rewrite Hreg, Hdir.
  destruct (Lstat_spec (dst ++ [name]) w) as [Hw1 Hr].
  destruct (Lstat (dst ++ [name]) w) as [w1 [e|n]]; cbn [fst snd] in *.
  - destruct (decide (e = ENOENT)) as [He|]; [|done].
    intros [= <- <-]. repeat split; try done. right. split; [done|].
    intros [_ [n Hn]]. rewrite Hr in Hn; done.
  - destruct force; cbn [negb]; intros [= <- <-]; repeat split; try done.
    + right. split; [done|]. by intros [? _].
    + left. eauto.
Qed.

Lemma syncEntry_force_dir (fuel : nat) (src dst : path) (name : string) (nd n : node)
    (res res' : Result) (w w' : world) :
  files w !! (dst ++ [name]) = Some n →
  isRegular nd = false → isDir nd = true →
  syncEntry fuel src dst true (name, nd) res w = (w', (res', None)) →
  res' = mkResult (Copied res) (Skipped res) (Forced res ++ [name]) ∧
  ∃ w1, files w1 = files w ∧
        copyDir fuel (src ++ [name]) (dst ++ [name]) w1 = (w', inr ()).
Proof.
  intros Hd Hreg Hdir. unfold syncEntry. cbn [fst snd negb]. rewrite Hreg, Hdir.
  destruct (Lstat_spec (dst ++ [name]) w) as [Hw1 Hr].
  destruct (Lstat (dst ++ [name]) w) as [w1 [e|n1]]; cbn [fst snd] in *.
  { destruct (decide (e = ENOENT)) as [He|]; [|done].
    rewrite Hr in Hd; done. }
  destruct (copyDir fuel (src ++ [name]) (dst ++ [name]) w1) as [w2 [e|[]]] eqn:Hc;
    [done|].
  intros [= <- <-]. split; [done|]. by exists w1.
Qed.

(** ** [copyDir], entry by entry *)

Lemma copyDir_unfold (fuel : nat) (s d : path) :
  copyDir (S fuel) s d =
  (es ← ReadDir s; _ ← mkdirDst d; copyLoop (copyEntry fuel s d) es).
Proof. reflexivity. Qed.

Lemma copyLoop_from (body : string * node → M unit) (es : list (string * node)) :
  ∀ (acc : M unit) (w : world),
  foldl (λ (acc : M unit) (entry : string * node), _ ← acc; body entry) acc es w =
  match acc w with
  | (w1, inr _) => copyLoop body es w1
  | (w1, inl e) => (w1, inl e)
  end.
Proof.
  induction es as [|e es IH]; intros acc w.
  - unfold copyLoop. simpl. by destruct (acc w) as [w1 [err|[]]].
  - unfold copyLoop. simpl. rewrite !IH, !bind_unfold.
    by destruct (acc w) as [w1 [err|[]]].
Qed.

Lemma copyLoop_cons (body : string * node → M unit) (e : string * node)
    (es : list (string * node)) (w : world) :
  copyLoop body (e :: es) w =
  match body e w with
  | (w1, inr _) => copyLoop body es w1
  | (w1, inl err) => (w1, inl err)
  end.
Proof. unfold copyLoop at 1. simpl. by rewrite copyLoop_from, bind_unfold. Qed.

Lemma copyLoop_app (body : string * node → M unit) (es1 es2 : list (string * node)) :
  ∀ w, copyLoop body (es1 ++ es2) w =
  match copyLoop body es1 w with
  | (w1, inr _) => copyLoop body es2 w1
  | (w1, inl err) => (w1, inl err)
  end.
Proof.
  induction es1 as [|e es1 IH]; intros w; [done|].
  change ((e :: es1) ++ es2) with (e :: (es1 ++ es2)). rewrite !copyLoop_cons.
  destruct (body e w) as [w1 [err|u]]; [done|apply IH].
Qed.

Lemma copyEntry_ok_foot (fuel : nat) (s d : path) (entry : string * node)
    (w w' : world) (u : unit) :
  copyEntry fuel s d entry w = (w', inr u) →
  foot (d ++ [entry.1]) (d ++ [entry.1]) (files w) (files w').
Proof.
  unfold copyEntry. destruct (isDir entry.2).
  - intros Hrun.
    destruct (hoare_run _ _ _ _ _ w
        (copyDir_foot fuel (s ++ [entry.1]) (d ++ [entry.1]) (files w)) eq_refl)
      as [_ Hp].
    by rewrite Hrun in Hp.
  - destruct (isRegular entry.2).
    + intros (data & mode & _ & ->)%copyFile_ok. apply foot_insert.
    + intros [= <-]. apply foot_refl.
Qed.

Lemma copyLoop_ok_others (fuel : nat) (s d : path) (P : path)
    (es : list (string * node)) : ∀ (w w' : world) (u : unit),
  (∀ e, e ∈ es → ¬ under (d ++ [e.1]) P ∧ ¬ P `prefix_of` d ++ [e.1]) →
  copyLoop (copyEntry fuel s d) es w = (w', inr u) →
  files w' !! P = files w !! P.
Proof.
  induction es as [|e es IH]; intros w w' u Hes.
  { by intros [= <-]. }
  rewrite copyLoop_cons.
  destruct (copyEntry fuel s d e w) as [w1 [err|u1]] eqn:Hent; [done|].
  intros Hrest. destruct (Hes e (list_elem_of_here _ _)) as [Hu Hp].
  rewrite (IH w1 w' u); [|by intros e' He'; apply Hes, list_elem_of_further|done].
  by apply (foot_outside _ _ _ P (copyEntry_ok_foot _ _ _ _ _ _ _ Hent)).
Qed.

Lemma mkrel_source (s d : path) (f0 f : fs) (rel : list string) :
  apart s d → mkrel d f0 f → f !! (s ++ rel) = f0 !! (s ++ rel).
Proof.
  intros [H1 _] Hmk. destruct (Hmk (s ++ rel)) as [?|[_ Hp]]; [done|].
  destruct H1. etrans; [|done]. by exists rel.
Qed.

(** A run of [copyDir] that returns nil has put every regular file of the
    source tree at the same relative path of the destination. *)
Lemma copyDir_copies (fuel : nat) : ∀ (s d : path) (w w' : world)
    (rel : list string) (c : string) (m : N),
  apart s d →
  copyDir fuel s d w = (w', inr ()) →
  reached (files w) s rel →
  files w !! (s ++ rel) = Some (File c m) →
  files w' !! (d ++ rel) = Some (File c m).
Proof.
  induction fuel as [|fuel IH]; intros s d w w' rel c m Hap Hrun Hreach Hfile;
    [done|].
  rewrite copyDir_unfold, !bind_unfold in Hrun.
  destruct (ReadDir_files s w) as [Hw1 Hes].
  destruct (ReadDir s w) as [w1 [e|es]]; [done|]. cbn [fst snd] in *.
  destruct (Hes es eq_refl) as [-> [ms Hs]]. clear Hes.
  pose proof (mkdirDst_mkrel d w1) as Hmk. rewrite Hw1 in Hmk.
  rewrite bind_unfold in Hrun.
  destruct (mkdirDst d w1) as [w2 [e|[]]]; [done|]. cbn [fst snd] in *.
  destruct rel as [|x rel].
  { rewrite app_nil_r in Hfile. congruence. }
  assert (Hsrc2 : ∀ r, files w2 !! (s ++ r) = files w !! (s ++ r)).
  { intros r. by apply (mkrel_source s d). }
  assert (Hx : ∃ nx, files w !! (s ++ [x]) = Some nx ∧
                     (rel = [] → nx = File c m) ∧ (rel ≠ [] → isDir nx = true)).
  { destruct rel as [|y rel].
    - exists (File c m). by repeat split.
    - destruct (Hreach [x]) as [md Hmd]; [by exists (y :: rel)|done|].
      exists (Dir md). by repeat split. }
  destruct Hx as (nx & Hnx & Hleaf & Hnode).
  assert (Hin : (x, nx) ∈ entries (files w) s) by (by apply elem_of_entries).
  pose proof (NoDup_entries (files w) s) as Hnd.
  apply list_elem_of_split in Hin as (es1 & es2 & Hsplit).
  rewrite Hsplit in Hnd, Hrun. apply NoDup_split_name in Hnd as [Hes1 Hes2].
  rewrite copyLoop_app in Hrun.
  destruct (copyLoop (copyEntry fuel s d) es1 w2) as [w3 [err|u3]] eqn:H1; [done|].
  assert (Hsrc3 : ∀ r, files w3 !! (s ++ r) = files w !! (s ++ r)).
  { intros r. rewrite <- Hsrc2.
    apply (copyLoop_ok_others fuel s d (s ++ r) es1 w2 w3 u3); [|done].
    intros e _. by apply source_outside. }
  rewrite copyLoop_cons in Hrun.
  destruct (copyEntry fuel s d (x, nx) w3) as [w4 [err|u4]] eqn:Hent; [done|].
  assert (Hd4 : files w4 !! (d ++ x :: rel) = Some (File c m)).
  { unfold copyEntry in Hent. cbn [fst snd] in Hent.
    destruct rel as [|y rel].
    - rewrite (Hleaf eq_refl) in Hent. cbn in Hent.
      apply copyFile_ok in Hent as (data & mode & Hsf & ->).
      rewrite Hsrc3, Hfile in Hsf. injection Hsf as <- <-.
      by rewrite lookup_insert_eq.
    - rewrite Hnode in Hent by done. destruct u4.
      rewrite (cons_middle x d), (assoc_L (++)).
      apply (IH (s ++ [x]) (d ++ [x]) w3 w4 (y :: rel) c m); [by apply apart_sub|done|..].
      + intros pre Hpre Hne. rewrite <- (assoc_L (++)), Hsrc3.
        apply (Hreach (x :: pre)); [by apply prefix_cons|congruence].
      + by rewrite <- (assoc_L (++)), Hsrc3. }
  rewrite <- Hd4. destruct u3.
  apply (copyLoop_ok_others fuel s d (d ++ x :: rel) es2 w4 w' ()); [|done].
  intros e He. apply (below_outside d _ e.1 x); [|by apply Hes2].
  exists rel. by rewrite <- (assoc_L (++)).
Qed.

(** ** Fuel that is enough *)

Lemma copyrel_foot_source (s d : path) (f0 f : fs) (rel : list string) :
  apart s d → foot d d f0 f → f !! (s ++ rel) = f0 !! (s ++ rel).
Proof.
  intros [H1 H2] Hfoot.
  destruct (Hfoot (s ++ rel)) as [?|[Hu|[_ [Hu|Hp]]]]; [done|..].
  - destruct (prefix_weak_total d s (s ++ rel) Hu) as [?|?]; [by exists rel|done..].
  - destruct (prefix_weak_total d s (s ++ rel) Hu) as [?|?]; [by exists rel|done..].
  - destruct H1. etrans; [|done]. by exists rel.
Qed.

Lemma copyEntry_source (fuel : nat) (s d : path) (entry : string * node)
    (w : world) (rel : list string) :
  apart s d →
  files (copyEntry fuel s d entry w).1 !! (s ++ rel) = files w !! (s ++ rel).
Proof.
  intros Hap. unfold copyEntry. destruct (isDir entry.2).
  - destruct (hoare_run _ _ _ _ _ w
        (copyDir_foot fuel (s ++ [entry.1]) (d ++ [entry.1]) (files w)) eq_refl)
      as [_ Hp].
    apply (copyrel_foot_source s d); [done|].
    apply (foot_mono (d ++ [entry.1]) (d ++ [entry.1])); [apply prefix_snoc..|].
    by destruct ((copyDir _ _ _ w).2).
  - destruct (isRegular entry.2); [|done].
    destruct (hoare_run _ _ _ _ _ w
        (copyFile_filepost (s ++ [entry.1]) (d ++ [entry.1]) (files w)) eq_refl)
      as [_ Hp].
    apply (copyrel_source s d); [done|]. apply (copyrel_filepost s d entry.1).
    by destruct ((copyFile _ _ w).2).
Qed.

(** With fuel above the depth of the source tree, [copyDir] does not stop for
    lack of fuel. *)
Lemma copyDir_fuel (fuel : nat) : ∀ (s d : path) (w : world),
  apart s d → is_Some (files w !! s) →
  (∀ rel, is_Some (files w !! (s ++ rel)) → length rel < fuel) →
  (copyDir fuel s d w).2 ≠ inl EFUEL.
Proof.
  induction fuel as [|fuel IH]; intros s d w Hap Hs Hdepth.
  { specialize (Hdepth []). rewrite app_nil_r in Hdepth.
    specialize (Hdepth Hs). simpl in Hdepth. lia. }
  rewrite copyDir_unfold, bind_unfold.
  pose proof (noFuel_ReadDir s w) as Hnf1.
  destruct (ReadDir_files s w) as [Hw1 Hes].
  destruct (ReadDir s w) as [w1 [e|es]]; cbn [fst snd] in *.
  { intros [= ->]. by apply Hnf1. }
  destruct (Hes es eq_refl) as [-> _]. clear Hes. rewrite bind_unfold.
  pose proof (noFuel_mkdirDst d w1) as Hnf2.
  pose proof (mkdirDst_mkrel d w1) as Hmk. rewrite Hw1 in Hmk.
  destruct (mkdirDst d w1) as [w2 [e|[]]]; cbn [fst snd] in *; [done|].
  assert (Hsrc2 : ∀ r, files w2 !! (s ++ r) = files w !! (s ++ r)).
  { intros r. by apply (mkrel_source s d). }
  assert (Hloop : ∀ (es : list (string * node)) (w3 : world),
    (∀ e, e ∈ es → files w !! (s ++ [e.1]) = Some e.2) →
    (∀ r, files w3 !! (s ++ r) = files w !! (s ++ r)) →
    (copyLoop (copyEntry fuel s d) es w3).2 ≠ inl EFUEL).
  { clear w1 w2 Hw1 Hnf1 Hnf2 Hmk Hsrc2.
    induction es as [|e es IHes]; intros w3 Hin Hinv; [done|].
    rewrite copyLoop_cons.
    assert (Hent : (copyEntry fuel s d e w3).2 ≠ inl EFUEL).
    { unfold copyEntry. destruct (isDir e.2).
      - apply IH; [by apply apart_sub|..].
        + rewrite Hinv, (Hin e) by apply list_elem_of_here. done.
        + intros rel Hrel. rewrite <- (assoc_L (++)), Hinv in Hrel.
          apply Hdepth in Hrel. simpl in Hrel. lia.
      - destruct (isRegular e.2); [apply noFuel_copyFile|done]. }
    pose proof (λ r, copyEntry_source fuel s d e w3 r Hap) as Hkeep.
    destruct (copyEntry fuel s d e w3) as [w4 [err|u]]; cbn [fst snd] in *; [done|].
    apply IHes.
    - intros e' He'. by apply Hin, list_elem_of_further.
    - intros r. by rewrite Hkeep. }
  apply Hloop; [|done].
  intros [x nx] He. by apply elem_of_entries.
Qed.

Lemma syncEntry_source (fuel : nat) (src dst : path) (force : bool)
    (entry : string * node) (res : Result) (w : world) (rel : list string) :
  apart src dst →
  files (syncEntry fuel src dst force entry res w).1 !! (src ++ rel)
    = files w !! (src ++ rel).
Proof.
  intros Hap.
  destruct (syncEntry_gen copyrel apart copyrel_refl copyrel_trans
              (λ S D, copyrel_mkrel S D) copyrel_filepost copyrel_sub apart_sub
              fuel src dst force entry res w Hap) as [_ Hrel].
  by apply (copyrel_source src dst).
Qed.

Lemma syncEntry_fuel (fuel : nat) (src dst : path) (force : bool)
    (entry : string * node) (res : Result) (w : world) :
  apart src dst →
  files w !! (src ++ [entry.1]) = Some entry.2 →
  (∀ rel, is_Some (files w !! (src ++ rel)) → (length rel ≤ fuel)%nat) →
  (syncEntry fuel src dst force entry res w).2.2 ≠ Some EFUEL.
Proof.
  intros Hap Hin Hdepth. unfold syncEntry.
  pose proof (noFuel_Lstat (dst ++ [entry.1]) w) as Hnf.
  destruct (Lstat_spec (dst ++ [entry.1]) w) as [Hw1 _].
  destruct (Lstat (dst ++ [entry.1]) w) as [w1 r1]. cbn [fst snd] in *.
  assert (Hfile : ∀ r : Result,
    (match copyFile (src ++ [entry.1]) (dst ++ [entry.1]) w1 with
     | (w2, inl e') => (w2, (res, Some e'))
     | (w2, inr _) => (w2, (r, None))
     end).2.2 ≠ Some EFUEL).
  { intros r. pose proof (noFuel_copyFile (src ++ [entry.1]) (dst ++ [entry.1]) w1).
    destruct (copyFile _ _ w1) as [w2 [e'|?]]; cbn in *; congruence. }
  assert (Hdir : ∀ r : Result,
    (match copyDir fuel (src ++ [entry.1]) (dst ++ [entry.1]) w1 with
     | (w2, inl e') => (w2, (res, Some e'))
     | (w2, inr _) => (w2, (r, None))
     end).2.2 ≠ Some EFUEL).
  { intros r.
    assert ((copyDir fuel (src ++ [entry.1]) (dst ++ [entry.1]) w1).2 ≠ inl EFUEL).
    { apply copyDir_fuel; [by apply apart_sub|by rewrite Hw1, Hin|].
      intros rel Hrel. rewrite <- (assoc_L (++)), Hw1 in Hrel.
      apply Hdepth in Hrel. simpl in Hrel. lia. }
    destruct (copyDir _ _ _ w1) as [w2 [e'|?]]; cbn in *; congruence. }
  destruct r1 as [e|n].
  - destruct (decide (e = ENOENT)); [|cbn in *; congruence].
    destruct (isRegular entry.2); [apply Hfile|].
    destruct (isDir entry.2); [apply Hdir|done].
  - destruct (negb force); [done|].
    destruct (isRegular entry.2); [apply Hfile|].
    destruct (isDir entry.2); [apply Hdir|done].
Qed.

(** With fuel at least the depth of the source tree, [Sync] does not stop
    for lack of fuel: an error it returns is the error of a call. *)
Lemma Sync_fuel (fuel : nat) (src dst : path) (force : bool) (w : world) :
  apart src dst →
  (∀ rel, is_Some (files w !! (src ++ rel)) → (length rel ≤ fuel)%nat) →
  (Sync fuel src dst force w).2.2 ≠ Some EFUEL.
Proof.
  intros Hap Hdepth. unfold Sync.
  pose proof (noFuel_ReadDir src w) as Hnf1.
  destruct (ReadDir_files src w) as [Hw1 Hes].
  destruct (ReadDir src w) as [w1 [e|es]]; cbn [fst snd] in *.
  { destruct (decide (e = ENOENT)); cbn; congruence. }
  destruct (Hes es eq_refl) as [-> _]. clear Hes.
  pose proof (noFuel_mkdirDst dst w1) as Hnf2.
  pose proof (mkdirDst_mkrel dst w1) as Hmk. rewrite Hw1 in Hmk.
  destruct (mkdirDst dst w1) as [w2 [e|[]]]; cbn [fst snd] in *; [congruence|].
  assert (Hsrc2 : ∀ r, files w2 !! (src ++ r) = files w !! (src ++ r)).
  { intros r. by apply (mkrel_source src dst). }
  assert (Hloop : ∀ (es : list (string * node)) (res : Result) (w3 : world),
    (∀ e, e ∈ es → files w !! (src ++ [e.1]) = Some e.2) →
    (∀ r, files w3 !! (src ++ r) = files w !! (src ++ r)) →
    (syncLoop fuel src dst force es res w3).2.2 ≠ Some EFUEL).
  { clear w1 w2 Hw1 Hnf1 Hnf2 Hmk Hsrc2.
    induction es as [|e es IHes]; intros res w3 Hin Hinv; [done|]. simpl.
    pose proof (syncEntry_fuel fuel src dst force e res w3 Hap) as Hent.
    pose proof (λ r, syncEntry_source fuel src dst force e res w3 r Hap) as Hkeep.
    destruct (syncEntry fuel src dst force e res w3) as [w4 [res4 [err|]]];
      cbn [fst snd] in *.
    - apply Hent.
      + rewrite Hinv. apply Hin, list_elem_of_here.
      + intros rel. rewrite Hinv. apply Hdepth.
    - apply IHes.
      + intros e' He'. by apply Hin, list_elem_of_further.
      + intros r. by rewrite Hkeep. }
  pose proof (Hloop (entries (files w) src) (mkResult [] [] []) w2) as Hl.
  destruct (syncLoop fuel src dst force (entries (files w) src) _ w2)
    as [w3 [res3 [err|]]]; cbn [fst snd] in *; [|done].
  apply Hl; [|done]. intros [x nx] He. by apply elem_of_entries.
Qed.

(** ** One name through the loop of [Sync] *)

Lemma mkrel_below (dst P : path) (name : string) (f0 f : fs) :
  mkrel dst f0 f → under (dst ++ [name]) P → f !! P = f0 !! P.
Proof.
  intros Hmk Hu. destruct (Hmk P) as [?|[_ Hp]]; [done|].
  assert (Hlen : dst ++ [name] `prefix_of` dst) by (unfold under in Hu; by etrans).
  apply prefix_length in Hlen. rewrite length_app in Hlen. simpl in Hlen. lia.
Qed.

(** A run of [Sync] that returns a result, seen from the turn of one entry of
    the source: what the tree holds at and below the entry of that name in the
    destination is what it held when [Sync] was called until the turn, and
    what the turn left from then on; a path that held something and is not in
    the destination is untouched until the turn; and the name enters the
    lists in its turn only. *)
Lemma Sync_at_name (fuel : nat) (src dst : path) (force : bool) (name : string)
    (w w' : world) (res : Result) (ms : N) (ns : node) :
  files w !! src = Some (Dir ms) →
  files w !! (src ++ [name]) = Some ns →
  Sync fuel src dst force w = (w', (res, None)) →
  ∃ w1 res1 w2 res2,
    syncEntry fuel src dst force (name, ns) res1 w1 = (w2, (res2, None)) ∧
    (∀ P, under (dst ++ [name]) P →
          files w1 !! P = files w !! P ∧ files w' !! P = files w2 !! P) ∧
    (∀ P, is_Some (files w !! P) → (∀ x, ¬ under (dst ++ [x]) P) →
          files w1 !! P = files w !! P) ∧
    (name ∉ Copied res1 ∧ name ∉ Skipped res1 ∧ name ∉ Forced res1) ∧
    (name ∈ Copied res ↔ name ∈ Copied res2) ∧
    (name ∈ Skipped res ↔ name ∈ Skipped res2) ∧
    (name ∈ Forced res ↔ name ∈ Forced res2).
Proof.
  intros Hsrc Hs Hrun.
  destruct (Sync_ok_inv fuel src dst force w w' res ms Hsrc Hrun)
    as (w0 & res3 & Hmk & Hloop & ->).
  destruct (syncLoop_split fuel src dst force name ns (entries (files w) src)
              (mkResult [] [] []) res3 w0 w')
    as (es1 & es2 & w1 & res1 & w2 & res2 & Hes1 & Hes2 & H1 & Hent & H2);
    [apply NoDup_entries|by apply elem_of_entries|done|].
  exists w1, res1, w2, res2. split; [done|].
  destruct (syncLoop_ok_others fuel src dst force (dst ++ [name]) name es1
              (mkResult [] [] []) res1 w0 w1) as (_ & Hc1 & Hs1 & Hf1); [|done|].
  { intros e He. split; [by apply Hes1|].
    by apply (below_outside dst _ e.1 name), Hes1. }
  destruct (syncLoop_ok_others fuel src dst force (dst ++ [name]) name es2
              res2 res3 w2 w') as (_ & Hc2 & Hs2 & Hf2); [|done|].
  { intros e He. split; [by apply Hes2|].
    by apply (below_outside dst _ e.1 name), Hes2. }
  cbn [Copied Skipped Forced] in *. rewrite !MergeFacts.sortStrings_perm.
  split; [|split; [|split; [|by rewrite Hc2, Hs2, Hf2]]].
  - intros P Hu. split.
    + destruct (syncLoop_ok_others fuel src dst force P name es1
                  (mkResult [] [] []) res1 w0 w1) as (-> & _); [|done|].
      { intros e He. split; [by apply Hes1|].
        by apply (below_outside dst _ e.1 name), Hes1. }
      by apply (mkrel_below dst P name).
    + destruct (syncLoop_ok_others fuel src dst force P name es2
                  res2 res3 w2 w') as (-> & _); [|done|done].
      intros e He. split; [by apply Hes2|].
      by apply (below_outside dst _ e.1 name), Hes2.
  - intros P HP Hout.
    destruct (syncLoop_others fuel src dst force P name es1 (mkResult [] [] []) w0)
      as (Hk & _).
    { intros e He. split; [by apply Hes1|apply Hout]. }
    { by rewrite (mkrel_keeps dst (files w)). }
    rewrite H1 in Hk. cbn [fst] in Hk. rewrite Hk.
    by apply (mkrel_keeps dst).
  - rewrite Hc1, Hs1, Hf1. by repeat split; intros ?%elem_of_nil.
Qed.

Lemma last_in (name : string) (l : list string) : name ∈ l ++ [name].
Proof. apply elem_of_app. right. apply list_elem_of_here. Qed.

Lemma depth_by_list (f : fs) (src : path) (fuel : nat) :
  forallb (λ p : path, bool_decide (length p ≤ length src + fuel)%nat) (map_to_list f).*1
    = true →
  ∀ rel, is_Some (f !! (src ++ rel)) → (length rel ≤ fuel)%nat.
Proof.
  intros Hall rel [n Hn]. rewrite forallb_forall in Hall.
  specialize (Hall (src ++ rel)).
  rewrite bool_decide_eq_true, length_app in Hall.
  assert (length src + length rel ≤ length src + fuel)%nat; [|lia].
  apply Hall. apply list_elem_of_In, list_elem_of_fmap.
  exists (src ++ rel, n). split; [done|]. by apply elem_of_map_to_list.
Qed.




Lemma C10_sync_deletes_nothing_witness :
  files (Sync 2 ["src"] ["dst"] true example_world).1 !! ["dst"; "skill"; "notes.md"]
  = Some (File "mine" 384).
Proof.
  apply (C10_sync_deletes_nothing 2 ["src"] ["dst"] true example_world
           ["skill"; "notes.md"]).
  - split; intros [k Hk]; discriminate Hk.
  - exists (File "mine" 384). vm_compute. reflexivity.
  - vm_compute. reflexivity.
Defined.

End DirSyncFacts.
